(** * soci-snapshotter: the artifact fetcher (package fs) and the retryable
      HTTP client configuration (package http), embedded and verified.

    Layout: shared data first, then one module of definitions per Go
    package ([http], [json], [fs]), then the properties. *)

From Stdlib Require Import ZArith List String Ascii Bool Lia.
From Stdlib.Strings Require Import Byte.
From stdpp Require Import base option list strings gmap.

Local Open Scope Z_scope.

(* ------------------------------------------------------------------ *)
(** ** Machine integers *)

(** Go's [int64] arithmetic wraps around silently: a mathematical result is
    reduced into [-2^63, 2^63). *)
Definition MinInt64 : Z := - 2 ^ 63.
Definition MaxInt64 : Z := 2 ^ 63 - 1.

Definition wrap64 (z : Z) : Z := (z + 2 ^ 63) mod 2 ^ 64 - 2 ^ 63.

Definition inInt64 (z : Z) : bool := (MinInt64 <=? z) && (z <=? MaxInt64).

(** [a / b] on [int64]: truncated towards zero; [b = 0] is a run-time panic
    and is handled by the callers. *)
Definition quot64 (a b : Z) : Z := wrap64 (Z.quot a b).

(* ------------------------------------------------------------------ *)
(** ** Package http: retry configuration, backoff and retry policy *)

Module http.

(** [time.Duration] is an [int64] count of nanoseconds. *)
Definition Duration : Type := Z.
Definition Millisecond : Duration := 1000000.
Definition Second : Duration := 1000000000.

Definition DefaultDialTimeoutMsec : Z := 3000.
Definition DefaultResponseHeaderTimeoutMsec : Z := 3000.
Definition DefaultRequestTimeoutMsec : Z := 30000.
Definition DefaultMaxRetries : Z := 8.
Definition DefaultMinWaitMsec : Z := 30.
Definition DefaultMaxWaitMsec : Z := 300000.

Record RetryConfig : Type := mkRetryConfig {
  MaxRetries : Z;
  MinWait : Duration;
  MaxWait : Duration
}.

Record TimeoutConfig : Type := mkTimeoutConfig {
  DialTimeout : Duration;
  ResponseHeaderTimeout : Duration;
  RequestTimeout : Duration
}.

Record RetryableClientConfig : Type := mkRetryableClientConfig {
  timeoutConfig : TimeoutConfig;
  retryConfig : RetryConfig
}.

Definition NewRetryableClientConfig : RetryableClientConfig :=
  {| timeoutConfig :=
       {| DialTimeout := wrap64 (DefaultDialTimeoutMsec * Millisecond);
          ResponseHeaderTimeout := wrap64 (DefaultResponseHeaderTimeoutMsec * Millisecond);
          RequestTimeout := wrap64 (DefaultRequestTimeoutMsec * Millisecond) |};
     retryConfig :=
       {| MaxRetries := DefaultMaxRetries;
          MinWait := wrap64 (DefaultMinWaitMsec * Millisecond);
          MaxWait := wrap64 (DefaultMaxWaitMsec * Millisecond) |} |}.

(** An [*http.Response] as far as the backoff and the retry policy read it:
    the status code and the server's retry-after hint, in seconds, when the
    response carries one. *)
Record Response : Type := mkResponse {
  StatusCode : Z;
  RetryAfter : option Z
}.

(** The error of a request attempt: the small set of URL errors that are not
    worth retrying, or any other network-level failure. *)
Variant RequestError : Type :=
  | NonRetryableURLError (msg : string)
  | NetworkError (msg : string).

(** [rand.Int63n n]: panics when [n <= 0], otherwise a number of [[0, n)].
    [src] is the value the random source yields for this draw; the result
    ranges over all of [[0, n)] as [src] ranges over the non-negative
    numbers. [None] is the panic. *)
Definition Int63n (n : Z) (src : Z) : option Z :=
  if n <=? 0 then None else Some (src mod n).

(** [Jitter]: [time.Duration(rand.Int63n(int64(duration)/divisor) + int64(duration))].
    The integer division panics on a zero divisor. *)
Definition Jitter (duration : Duration) (divisor : Z) (src : Z) : option Duration :=
  if divisor =? 0 then None
  else
    match Int63n (quot64 duration divisor) src with
    | None => None
    | Some r => Some (wrap64 (r + duration))
    end.

(** The retry-after hint of a response, if there is a response and it has one. *)
Definition retryAfterHint (resp : option Response) : option Z :=
  match resp with
  | Some r => RetryAfter r
  | None => None
  end.

(** Modelled from the spec: [rhttp.DefaultBackoff] belongs to
    go-retryablehttp and is not among the sources. The spec (section 6) and
    the comment on [BackoffStrategy] describe it: the server's retry-after
    hint when there is one, otherwise the exponential delay
    [2^attemptNum * min], limited by [max]. A product that does not fit a
    duration counts as exceeding [max]. Attempt numbers count from 0. *)
Definition DefaultBackoff (min max : Duration) (attemptNum : Z)
    (resp : option Response) : Duration :=
  match retryAfterHint resp with
  | Some seconds => wrap64 (Second * seconds)
  | None =>
      let mult := 2 ^ attemptNum * min in
      if inInt64 mult && (mult <=? max) then mult else max
  end.

(** [BackoffStrategy]: the default backoff with a jitter of one eighth. *)
Definition BackoffStrategy (min max : Duration) (attemptNum : Z)
    (resp : option Response) (src : Z) : option Duration :=
  let delayTime := DefaultBackoff min max attemptNum resp in
  Jitter delayTime 8 src.

(** Modelled from the spec: [rhttp.DefaultRetryPolicy] belongs to
    go-retryablehttp and is not among the sources. The spec (section 6) and
    the comment on [RetryStrategy] describe it: retry whenever the attempt
    failed with an error, except for the non-retryable URL errors, and
    whenever the status is 429 or 5xx except 501; every other outcome is
    terminal. The spec describes no error result of the policy itself. *)
Definition DefaultRetryPolicy (resp : option Response)
    (err : option RequestError) : bool * option RequestError :=
  match err with
  | Some (NonRetryableURLError _) => (false, None)
  | Some (NetworkError _) => (true, None)
  | None =>
      match resp with
      | None => (false, None)
      | Some r =>
          let s := StatusCode r in
          if s =? 429 then (true, None)
          else if (500 <=? s) && (s <=? 599) && negb (s =? 501) then (true, None)
          else (false, None)
      end
  end.

(** One debug line of the logger, with the two fields the source attaches. *)
Record LogEntry : Type := mkLogEntry {
  field_error : option RequestError;
  field_response : option Response;
  message : string
}.

(** [RetryStrategy]: the default policy's answer, unchanged, plus a debug
    line when the answer is to retry. The result is the pair the Go function
    returns and the lines it logged. *)
Definition RetryStrategy (resp : option Response) (err : option RequestError)
    : (bool * option RequestError) * list LogEntry :=
  let '(retry, err2) := DefaultRetryPolicy resp err in
  ((retry, err2),
   if retry then [mkLogEntry err resp "retrying request"] else []).

(** The retryable client as [NewRetryableClient] configures it. *)
Record Client : Type := mkClient {
  RetryMax : Z;
  RetryWaitMin : Duration;
  RetryWaitMax : Duration;
  Backoff : Duration -> Duration -> Z -> option Response -> Z -> option Duration;
  CheckRetry : option Response -> option RequestError
               -> (bool * option RequestError) * list LogEntry;
  Timeout : Duration;
  DialerTimeout : Duration;
  TransportResponseHeaderTimeout : Duration
}.

Definition NewRetryableClient (config : RetryableClientConfig) : Client :=
  {| RetryMax := MaxRetries (retryConfig config);
     RetryWaitMin := MinWait (retryConfig config);
     RetryWaitMax := MaxWait (retryConfig config);
     Backoff := BackoffStrategy;
     CheckRetry := RetryStrategy;
     Timeout := RequestTimeout (timeoutConfig config);
     DialerTimeout := DialTimeout (timeoutConfig config);
     TransportResponseHeaderTimeout := ResponseHeaderTimeout (timeoutConfig config) |}.

End http.

(* ------------------------------------------------------------------ *)
(** ** Errors, results, content *)

Definition Bytes : Type := list byte.

(** Go error values, as far as the sources build and pass them on.
    [wrapError] is [fmt.Errorf] with a final [%w]: the format string, the
    arguments printed before the wrapped error, and the wrapped error. *)
Inductive error : Type :=
  | errorString (s : string)
  | SyntaxError (c : option byte) (context : string) (Offset : Z)
  | wrapError (format : string) (args : list string) (err : error).

Definition fmt_Errorf (format : string) (args : list string) (err : error) : error :=
  wrapError format args err.

(** [errors.Unwrap], iterated: the error at the bottom of a chain. *)
Fixpoint rootCause (e : error) : error :=
  match e with
  | wrapError _ _ err => rootCause err
  | _ => e
  end.

(** A Go result pair [(value, error)] with [error == nil] or not. *)
Inductive Result (A : Type) : Type :=
  | Ok (a : A)
  | Err (e : error).
Arguments Ok {A} a.
Arguments Err {A} e.

Definition isErr {A : Type} (r : Result A) : bool :=
  match r with Ok _ => false | Err _ => true end.

(** [ocispec.Descriptor], the fields the sources read. Digests are strings. *)
Record Descriptor : Type := mkDescriptor {
  MediaType : string;
  Digest : string;
  Size : Z
}.

(** [reference.Spec]. *)
Record Spec : Type := mkSpec {
  Locator : string;
  Object : string
}.

(** An [io.ReadCloser]: the bytes a reader delivers before it ends, and the
    error it ends with when it does not end at EOF. *)
Record Stream : Type := mkStream {
  content : Bytes;
  readErr : option error
}.

(** [io.Copy(buffer, src)]: everything read, and the read error if any. *)
Definition io_Copy (src : Stream) : Bytes * option error :=
  (content src, readErr src).

(** A [bytes.Buffer] used as a reader. *)
Definition bufferReader (b : Bytes) : Stream :=
  {| content := b; readErr := None |}.

(** A [context.Context], as far as a callee can observe it. *)
Record Context : Type := mkContext {
  cancelled : bool
}.

Variant Level : Type := Info | Warn.

(** What the environment sees of a run, in order. *)
Inductive Event : Type :=
  | EvLocalFetch (d : Descriptor)
  | EvLocalPush (d : Descriptor) (r : Stream) (res : option error)
  | EvResolve (ref : string)
  | EvRemoteFetch (d : Descriptor)
  | EvClose (rc : Stream)
  | EvLog (lvl : Level) (fields : list (string * string)) (msg : string).

(** [content.Storage] (oras): the interface of the local store. A store is a
    state; [Push] yields the next state. *)
Class Storage (S : Type) : Type := {
  storage_Fetch : S -> Context -> Descriptor -> Result Stream;
  storage_Push : S -> Context -> Descriptor -> Stream -> option error * S
}.

(** The remote store is only ever fetched from, the resolver only resolves;
    both are the registry's, so their answers may depend on what happened
    before. *)
Definition RemoteStorage : Type := list Event -> Context -> Descriptor -> Result Stream.
Definition Resolver : Type := list Event -> Context -> string -> Result Descriptor.

(* ------------------------------------------------------------------ *)
(** ** encoding/json: the validity scanner that [json.Unmarshal] runs first *)

Module json.

Local Open Scope byte_scope.

(** The scanner's step functions, as an enumeration ([scanner.step]). *)
Variant State : Type :=
  | stateBeginValue | stateBeginValueOrEmpty
  | stateBeginString | stateBeginStringOrEmpty
  | stateEndValue | stateEndTop
  | stateInString | stateInStringEsc
  | stateInStringEscU | stateInStringEscU1 | stateInStringEscU12 | stateInStringEscU123
  | stateNeg | state1 | state0 | stateDot | stateDot0 | stateE | stateESign | stateE0
  | stateT | stateTr | stateTru
  | stateF | stateFa | stateFal | stateFals
  | stateN | stateNu | stateNul
  | stateError.

Variant ParseState : Type := parseObjectKey | parseObjectValue | parseArrayValue.

(** The codes a step returns. *)
Variant Code : Type :=
  | scanContinue | scanBeginLiteral | scanBeginObject | scanObjectKey
  | scanObjectValue | scanEndObject | scanBeginArray | scanArrayValue
  | scanEndArray | scanSkipSpace | scanEnd | scanError.

Definition maxNestingDepth : Z := 10000.

(** [parseState] is a stack; its top is the head of the list. *)
Record scanner : Type := mkScanner {
  step : State;
  endTop : bool;
  parseState : list ParseState;
  err : option error;
  bytes : Z
}.

Definition withStep (s : scanner) (st : State) : scanner :=
  {| step := st; endTop := endTop s; parseState := parseState s;
     err := err s; bytes := bytes s |}.

Definition withParseState (s : scanner) (ps : list ParseState) : scanner :=
  {| step := step s; endTop := endTop s; parseState := ps;
     err := err s; bytes := bytes s |}.

Definition reset : scanner :=
  {| step := stateBeginValue; endTop := false; parseState := [];
     err := None; bytes := 0%Z |}.

(** [scanner.error]: record a syntax error at the current byte and stop. *)
Definition scanner_error (s : scanner) (c : byte) (context : string) : scanner * Code :=
  ({| step := stateError; endTop := endTop s; parseState := parseState s;
      err := Some (SyntaxError (Some c) context (bytes s)); bytes := bytes s |},
   scanError).

Definition pushParseState (s : scanner) (c : byte) (newParseState : ParseState)
    (successState : Code) : scanner * Code :=
  let s' := withParseState s (newParseState :: parseState s) in
  if (Z.of_nat (length (parseState s')) <=? maxNestingDepth)%Z then (s', successState)
  else scanner_error s' c "exceeded max depth".

Definition popParseState (s : scanner) : scanner :=
  match parseState s with
  | [] => s
  | _ :: rest =>
      match rest with
      | [] => {| step := stateEndTop; endTop := true; parseState := rest;
                 err := err s; bytes := bytes s |}
      | _ => {| step := stateEndValue; endTop := endTop s; parseState := rest;
                err := err s; bytes := bytes s |}
      end
  end.

Definition isSpace (c : byte) : bool :=
  match c with
  | x20 | x09 | x0d | x0a => true
  | _ => false
  end.

Definition between (lo hi c : byte) : bool :=
  (Byte.to_N lo <=? Byte.to_N c)%N && (Byte.to_N c <=? Byte.to_N hi)%N.

Definition isHex (c : byte) : bool :=
  between "0" "9" c || between "a" "f" c || between "A" "F" c.

Definition do_stateEndTop (s : scanner) (c : byte) : scanner * Code :=
  if isSpace c then (s, scanEnd)
  else (fst (scanner_error s c "after top-level value"), scanEnd).

Definition do_stateEndValue (s : scanner) (c : byte) : scanner * Code :=
  match parseState s with
  | [] =>
      do_stateEndTop
        {| step := stateEndTop; endTop := true; parseState := parseState s;
           err := err s; bytes := bytes s |} c
  | ps :: rest =>
      if isSpace c then (withStep s stateEndValue, scanSkipSpace)
      else
        match ps with
        | parseObjectKey =>
            if Byte.eqb c ":" then
              (withStep (withParseState s (parseObjectValue :: rest)) stateBeginValue,
               scanObjectKey)
            else scanner_error s c "after object key"
        | parseObjectValue =>
            if Byte.eqb c "," then
              (withStep (withParseState s (parseObjectKey :: rest)) stateBeginString,
               scanObjectValue)
            else if Byte.eqb c "}" then (popParseState s, scanEndObject)
            else scanner_error s c "after object key:value pair"
        | parseArrayValue =>
            if Byte.eqb c "," then (withStep s stateBeginValue, scanArrayValue)
            else if Byte.eqb c "]" then (popParseState s, scanEndArray)
            else scanner_error s c "after array element"
        end
  end.

Definition do_stateBeginValue (s : scanner) (c : byte) : scanner * Code :=
  if isSpace c then (s, scanSkipSpace)
  else if Byte.eqb c "{" then
    pushParseState (withStep s stateBeginStringOrEmpty) c parseObjectKey scanBeginObject
  else if Byte.eqb c "[" then
    pushParseState (withStep s stateBeginValueOrEmpty) c parseArrayValue scanBeginArray
  else if Byte.eqb c x22 then (withStep s stateInString, scanBeginLiteral)
  else if Byte.eqb c "-" then (withStep s stateNeg, scanBeginLiteral)
  else if Byte.eqb c "0" then (withStep s state0, scanBeginLiteral)
  else if Byte.eqb c "t" then (withStep s stateT, scanBeginLiteral)
  else if Byte.eqb c "f" then (withStep s stateF, scanBeginLiteral)
  else if Byte.eqb c "n" then (withStep s stateN, scanBeginLiteral)
  else if between "1" "9" c then (withStep s state1, scanBeginLiteral)
  else scanner_error s c "looking for beginning of value".

Definition do_stateBeginValueOrEmpty (s : scanner) (c : byte) : scanner * Code :=
  if isSpace c then (s, scanSkipSpace)
  else if Byte.eqb c "]" then do_stateEndValue s c
  else do_stateBeginValue s c.

Definition do_stateBeginString (s : scanner) (c : byte) : scanner * Code :=
  if isSpace c then (s, scanSkipSpace)
  else if Byte.eqb c x22 then (withStep s stateInString, scanBeginLiteral)
  else scanner_error s c "looking for beginning of object key string".

Definition do_stateBeginStringOrEmpty (s : scanner) (c : byte) : scanner * Code :=
  if isSpace c then (s, scanSkipSpace)
  else if Byte.eqb c "}" then
    match parseState s with
    | [] => do_stateEndValue s c
    | _ :: rest => do_stateEndValue (withParseState s (parseObjectValue :: rest)) c
    end
  else do_stateBeginString s c.

Definition do_stateInString (s : scanner) (c : byte) : scanner * Code :=
  if Byte.eqb c x22 then (withStep s stateEndValue, scanContinue)
  else if Byte.eqb c x5c then (withStep s stateInStringEsc, scanContinue)
  else if (Byte.to_N c <? 32)%N then scanner_error s c "in string literal"
  else (s, scanContinue).

Definition do_stateInStringEsc (s : scanner) (c : byte) : scanner * Code :=
  match c with
  | "b" | "f" | "n" | "r" | "t" | x5c | "/" | x22 => (withStep s stateInString, scanContinue)
  | "u" => (withStep s stateInStringEscU, scanContinue)
  | _ => scanner_error s c "in string escape code"
  end.

Definition hexStep (next : State) (s : scanner) (c : byte) : scanner * Code :=
  if isHex c then (withStep s next, scanContinue)
  else scanner_error s c "in \u hexadecimal character escape".

Definition do_stateNeg (s : scanner) (c : byte) : scanner * Code :=
  if Byte.eqb c "0" then (withStep s state0, scanContinue)
  else if between "1" "9" c then (withStep s state1, scanContinue)
  else scanner_error s c "in numeric literal".

Definition do_state0 (s : scanner) (c : byte) : scanner * Code :=
  if Byte.eqb c "." then (withStep s stateDot, scanContinue)
  else if Byte.eqb c "e" || Byte.eqb c "E" then (withStep s stateE, scanContinue)
  else do_stateEndValue s c.

Definition do_state1 (s : scanner) (c : byte) : scanner * Code :=
  if between "0" "9" c then (withStep s state1, scanContinue)
  else do_state0 s c.

Definition do_stateDot (s : scanner) (c : byte) : scanner * Code :=
  if between "0" "9" c then (withStep s stateDot0, scanContinue)
  else scanner_error s c "after decimal point in numeric literal".

Definition do_stateDot0 (s : scanner) (c : byte) : scanner * Code :=
  if between "0" "9" c then (s, scanContinue)
  else if Byte.eqb c "e" || Byte.eqb c "E" then (withStep s stateE, scanContinue)
  else do_stateEndValue s c.

Definition do_stateESign (s : scanner) (c : byte) : scanner * Code :=
  if between "0" "9" c then (withStep s stateE0, scanContinue)
  else scanner_error s c "in exponent of numeric literal".

Definition do_stateE (s : scanner) (c : byte) : scanner * Code :=
  if Byte.eqb c "+" || Byte.eqb c "-" then (withStep s stateESign, scanContinue)
  else do_stateESign s c.

Definition do_stateE0 (s : scanner) (c : byte) : scanner * Code :=
  if between "0" "9" c then (s, scanContinue)
  else do_stateEndValue s c.

(** One letter of [true], [false] or [null]. *)
Definition letterStep (want : byte) (next : State) (context : string)
    (s : scanner) (c : byte) : scanner * Code :=
  if Byte.eqb c want then (withStep s next, scanContinue)
  else scanner_error s c context.

(** [s.step(s, c)]. *)
Definition doStep (s : scanner) (c : byte) : scanner * Code :=
  match step s with
  | stateBeginValue => do_stateBeginValue s c
  | stateBeginValueOrEmpty => do_stateBeginValueOrEmpty s c
  | stateBeginString => do_stateBeginString s c
  | stateBeginStringOrEmpty => do_stateBeginStringOrEmpty s c
  | stateEndValue => do_stateEndValue s c
  | stateEndTop => do_stateEndTop s c
  | stateInString => do_stateInString s c
  | stateInStringEsc => do_stateInStringEsc s c
  | stateInStringEscU => hexStep stateInStringEscU1 s c
  | stateInStringEscU1 => hexStep stateInStringEscU12 s c
  | stateInStringEscU12 => hexStep stateInStringEscU123 s c
  | stateInStringEscU123 => hexStep stateInString s c
  | stateNeg => do_stateNeg s c
  | state1 => do_state1 s c
  | state0 => do_state0 s c
  | stateDot => do_stateDot s c
  | stateDot0 => do_stateDot0 s c
  | stateE => do_stateE s c
  | stateESign => do_stateESign s c
  | stateE0 => do_stateE0 s c
  | stateT => letterStep "r" stateTr "in literal true (expecting 'r')" s c
  | stateTr => letterStep "u" stateTru "in literal true (expecting 'u')" s c
  | stateTru => letterStep "e" stateEndValue "in literal true (expecting 'e')" s c
  | stateF => letterStep "a" stateFa "in literal false (expecting 'a')" s c
  | stateFa => letterStep "l" stateFal "in literal false (expecting 'l')" s c
  | stateFal => letterStep "s" stateFals "in literal false (expecting 's')" s c
  | stateFals => letterStep "e" stateEndValue "in literal false (expecting 'e')" s c
  | stateN => letterStep "u" stateNu "in literal null (expecting 'u')" s c
  | stateNu => letterStep "l" stateNul "in literal null (expecting 'l')" s c
  | stateNul => letterStep "l" stateEndValue "in literal null (expecting 'l')" s c
  | stateError => (s, scanError)
  end.

(** [scanner.eof]. *)
Definition eof (s : scanner) : scanner * Code :=
  match err s with
  | Some _ => (s, scanError)
  | None =>
      if endTop s then (s, scanEnd)
      else
        let s' := fst (doStep s x20) in
        if endTop s' then (s', scanEnd)
        else
          match err s' with
          | Some _ => (s', scanError)
          | None =>
              ({| step := step s'; endTop := endTop s'; parseState := parseState s';
                  err := Some (SyntaxError None "unexpected end of JSON input" (bytes s'));
                  bytes := bytes s' |}, scanError)
          end
  end.

Definition isScanError (c : Code) : bool :=
  match c with scanError => true | _ => false end.

Definition errOf (s : scanner) : error :=
  match err s with
  | Some e => e
  | None => errorString "json: scanner error"
  end.

(** The loop of [checkValid] over the remaining input. *)
Fixpoint scanAll (s : scanner) (data : Bytes) : scanner + error :=
  match data with
  | [] => inl s
  | c :: rest =>
      let s1 := {| step := step s; endTop := endTop s; parseState := parseState s;
                   err := err s; bytes := (bytes s + 1)%Z |} in
      let '(s2, code) := doStep s1 c in
      if isScanError code then inr (errOf s2) else scanAll s2 rest
  end.

(** [checkValid]: [None] when [data] is one JSON value, else the syntax error. *)
Definition checkValid (data : Bytes) : option error :=
  match scanAll reset data with
  | inr e => Some e
  | inl s =>
      let '(s', code) := eof s in
      if isScanError code then Some (errOf s') else None
  end.

(** [json.Unmarshal(data, &v)]: the syntax check over the whole input comes
    first; only valid input reaches the decoding into the target, which
    depends on the target's type and is passed in as [unmarshal]. *)
Definition Unmarshal {A : Type} (unmarshal : Bytes -> Result A) (data : Bytes) : Result A :=
  match checkValid data with
  | Some e => Err e
  | None => unmarshal data
  end.

End json.

(* ------------------------------------------------------------------ *)
(** ** Package fs: the artifact fetcher *)

Module fs.

(** *** Programs over the collaborators

    The fetcher's code is a sequence of calls into the local store, the
    resolver and the remote store, with logging and stream closing in
    between. A program is the tree of those calls; running it against a
    world performs them in order. The goroutines of the blob group are
    programs too, stepped one call at a time. *)

Inductive Op : Type -> Type :=
  | LocalFetch (desc : Descriptor) : Op (Result Stream)
  | LocalPush (desc : Descriptor) (reader : Stream) : Op (option error)
  | Resolve (r : Resolver) (ref : string) : Op (Result Descriptor)
  | RemoteFetch (rs : RemoteStorage) (desc : Descriptor) : Op (Result Stream)
  | Close (rc : Stream) : Op unit
  | Log (lvl : Level) (fields : list (string * string)) (msg : string) : Op unit.

Inductive Prog (A : Type) : Type :=
  | Ret (a : A)
  | Vis {X : Type} (op : Op X) (k : X -> Prog A).
Arguments Ret {A} a.
Arguments Vis {A X} op k.

Fixpoint bind {A B : Type} (m : Prog A) (f : A -> Prog B) : Prog B :=
  match m with
  | Ret a => f a
  | Vis op k => Vis op (fun x => bind (k x) f)
  end.

Definition call {X : Type} (op : Op X) : Prog X := Vis op Ret.

Notation "x <- m ;; k" := (bind m (fun x => k))
  (at level 100, m at next level, right associativity).

(** The world a program runs in: the local store, the context that the
    running code passes to its callees, and the history so far. *)
Record World (S : Type) : Type := mkWorld {
  store : S;
  ctx : Context;
  trace : list Event
}.
Arguments mkWorld {S} store ctx trace.
Arguments store {S} w.
Arguments ctx {S} w.
Arguments trace {S} w.

Definition record {S : Type} (ev : Event) (w : World S) : World S :=
  {| store := store w; ctx := ctx w; trace := trace w ++ [ev] |}.

(** One call, performed. *)
Definition handle {S : Type} `{Storage S} {X : Type} (op : Op X) (w : World S)
    : X * World S :=
  match op in Op X return X * World S with
  | LocalFetch desc =>
      (storage_Fetch (store w) (ctx w) desc, record (EvLocalFetch desc) w)
  | LocalPush desc reader =>
      let '(res, s') := storage_Push (store w) (ctx w) desc reader in
      (res, {| store := s'; ctx := ctx w;
               trace := trace w ++ [EvLocalPush desc reader res] |})
  | Resolve r ref => (r (trace w) (ctx w) ref, record (EvResolve ref) w)
  | RemoteFetch rs desc => (rs (trace w) (ctx w) desc, record (EvRemoteFetch desc) w)
  | Close rc => (tt, record (EvClose rc) w)
  | Log lvl fields msg => (tt, record (EvLog lvl fields msg) w)
  end.

Fixpoint run {S : Type} `{Storage S} {A : Type} (p : Prog A) (w : World S)
    : A * World S :=
  match p with
  | Ret a => (a, w)
  | Vis op k => let '(x, w') := handle op w in run (k x) w'
  end.

(** *** The fetcher *)

(** [artifactFetcher]. Its [localStore] field refers to the caller's store
    object, which is the [store] of the world. *)
Record artifactFetcher : Type := mkArtifactFetcher {
  resolver : Resolver;
  remoteStore : RemoteStorage;
  refspec : Spec
}.

Definition newArtifactFetcher (refspec : Spec) (remoteStore : RemoteStorage)
    (resolver : Resolver) : Result artifactFetcher :=
  Ok {| resolver := resolver; remoteStore := remoteStore; refspec := refspec |}.

(** [auth.Credential]. *)
Record Credential : Type := mkCredential {
  Username : string;
  Password : string;
  RefreshToken : string
}.

Definition EmptyCredential : Credential :=
  {| Username := ""; Password := ""; RefreshToken := "" |}.

(** The credential callback that [newRemoteStore] installs, over
    [dockerconfig.DockerCreds]. *)
Definition remoteCredential (DockerCreds : string -> Result (string * string))
    (host : string) : Result Credential :=
  match DockerCreds host with
  | Err err => Err err
  | Ok (username, secret) =>
      if String.eqb username "" && negb (String.eqb secret "") then
        Ok {| Username := ""; Password := ""; RefreshToken := secret |}
      else
        Ok {| Username := username; Password := secret; RefreshToken := "" |}
  end.

(** [soci.SociIndex], the field the sources read. *)
Record SociIndex : Type := mkSociIndex {
  Blobs : list Descriptor
}.

(** The collaborators [FetchSociArtifacts] reaches through library calls:
    reference and digest parsing, the registry client behind the remote
    store, the Docker resolver, and the decoding of valid JSON into
    [soci.SociIndex], a type declared in package soci. *)
Record Deps : Type := mkDeps {
  reference_Parse : string -> Result Spec;
  remote_NewRepository : string -> Result RemoteStorage;
  docker_NewResolver : Resolver;
  digest_Parse : string -> Result string;
  unmarshalSociIndex : Bytes -> Result SociIndex
}.

Definition newRemoteStore (deps : Deps) (refspec : Spec) : Result RemoteStorage :=
  match remote_NewRepository deps (Locator refspec) with
  | Err err => Err (fmt_Errorf "cannot create repository %s: %w" [Locator refspec] err)
  | Ok repo => Ok repo
  end.

Definition newResolver (deps : Deps) : Resolver := docker_NewResolver deps.

(** [constructRef]: [<locator>@<digest>]. *)
Definition constructRef (f : artifactFetcher) (desc : Descriptor) : string :=
  (Locator (refspec f) +:+ "@" +:+ Digest desc)%string.

Definition resolve (f : artifactFetcher) (desc : Descriptor) : Prog (Result Descriptor) :=
  let ref := constructRef f desc in
  r <- call (Resolve (resolver f) ref);;
  match r with
  | Err err => Ret (Err (fmt_Errorf "unable to resolve ref (%s): %w" [ref] err))
  | Ok desc => Ret (Ok desc)
  end.

(** [Fetch]: the stream, whether it came from the local store, or an error. *)
Definition Fetch (f : artifactFetcher) (desc : Descriptor)
    : Prog (Result (Stream * bool)) :=
  r <- call (LocalFetch desc);;
  match r with
  | Ok rc => Ret (Ok (rc, true))
  | Err _ =>
      _ <- call (Log Info [("digest", Digest desc)] "fetching artifact from remote");;
      resolved <-
        (if Size desc =? 0 then
           _ <- call (Log Warn [("digest", Digest desc)]
                       "size of descriptor is 0, trying to resolve it...");;
           r <- resolve f desc;;
           match r with
           | Err err =>
               Ret (Err (fmt_Errorf "size of descriptor is 0; unable to resolve: %w" [] err))
           | Ok desc => Ret (Ok desc)
           end
         else Ret (Ok desc));;
      match resolved with
      | Err e => Ret (Err e)
      | Ok desc =>
          r <- call (RemoteFetch (remoteStore f) desc);;
          match r with
          | Err err =>
              Ret (Err (fmt_Errorf "unable to fetch descriptor (%v) from remote store: %w"
                           [Digest desc] err))
          | Ok rc => Ret (Ok (rc, false))
          end
      end
  end.

(** [Store]. *)
Definition Store (f : artifactFetcher) (desc : Descriptor) (reader : Stream)
    : Prog (option error) :=
  r <- call (LocalPush desc reader);;
  match r with
  | Some err => Ret (Some (fmt_Errorf "unable to push to local store: %w" [] err))
  | None => Ret None
  end.

(** *** FetchSociArtifacts *)

(** The first part of [FetchSociArtifacts]: build the fetcher, parse the
    digest and fetch the index by digest alone (size 0). *)
Definition fetchIndex (deps : Deps) (imageRef indexDigest : string)
    : Prog (Result (artifactFetcher * string * Stream * bool)) :=
  match reference_Parse deps imageRef with
  | Err err => Ret (Err (fmt_Errorf "cannot parse image ref (%s): %w" [imageRef] err))
  | Ok refspec =>
  match newRemoteStore deps refspec with
  | Err err => Ret (Err (fmt_Errorf "cannot create remote store: %w" [] err))
  | Ok remoteStore =>
  match newArtifactFetcher refspec remoteStore (newResolver deps) with
  | Err err => Ret (Err (fmt_Errorf "could not create an artifact fetcher: %w" [] err))
  | Ok fetcher =>
  _ <- call (Log Info [("digest", indexDigest)] "fetching SOCI index from remote registry");;
  match digest_Parse deps indexDigest with
  | Err err =>
      _ <- call (Log Warn [("digest", indexDigest)] "could not parse soci index digest");;
      Ret (Err err)
  | Ok dgst =>
  r <- Fetch fetcher {| MediaType := ""; Digest := dgst; Size := 0 |};;
  match r with
  | Err err => Ret (Err (fmt_Errorf "unable to fetch SOCI index: %w" [] err))
  | Ok (indexReader, local) => Ret (Ok (fetcher, dgst, indexReader, local))
  end end end end end.

(** The descriptor under which the index is cached. *)
Definition indexDescriptor (dgst : string) (buffer : Bytes) : Descriptor :=
  {| MediaType := ""; Digest := dgst; Size := Z.of_nat (length buffer) |}.

(** The second part: drain the stream into a buffer, close it, decode the
    bytes with [json.Unmarshal], and push them to the store when the index
    did not come from there. *)
Definition decodeAndCache (deps : Deps) (dgst : string) (indexReader : Stream)
    (local : bool) : Prog (Result SociIndex) :=
  let '(buffer, err) := io_Copy indexReader in
  _ <- call (Close indexReader);;
  match err with
  | Some err => Ret (Err err)
  | None =>
  let indexBytes := buffer in
  match json.Unmarshal (unmarshalSociIndex deps) indexBytes with
  | Err err => Ret (Err err)
  | Ok index =>
      if negb local then
        res <- call (LocalPush (indexDescriptor dgst buffer) (bufferReader buffer));;
        match res with
        | Some err =>
            _ <- call (Log Warn [] "unable to store SOCI index into local store");;
            Ret (Err err)
        | None => Ret (Ok index)
        end
      else Ret (Ok index)
  end end.

(** The function passed to [eg.Go] for one blob. The deferred [Close] runs
    after the result is computed. *)
Definition blobTask (fetcher : artifactFetcher) (blob : Descriptor)
    : Prog (option error) :=
  r <- Fetch fetcher blob;;
  match r with
  | Err err => Ret (Some (fmt_Errorf "cannot fetch artifact: %w" [] err))
  | Ok (rc, local) =>
      if local then
        _ <- call (Close rc);;
        Ret None
      else
        res <- Store fetcher blob rc;;
        _ <- call (Close rc);;
        Ret res
  end.

(** *** errgroup

    [errgroup.WithContext]: goroutines run interleaved, one call at a time;
    the first one to return an error sets the group's error and cancels the
    group's context; [Wait] returns once all have returned. [returned] is
    the order in which the goroutines returned, with what they returned. *)
Record Group : Type := mkGroup {
  err : option error;
  goroutines : list (option (Prog (option error)));
  returned : list (nat * option error)
}.

Definition cancel {S : Type} (w : World S) : World S :=
  {| store := store w; ctx := {| cancelled := true |}; trace := trace w |}.

(** The wrapper of [eg.Go] after the function returned [r]: [errOnce]. *)
Definition goroutineReturns {S : Type} (i : nat) (r : option error)
    (g : Group) (w : World S) : Group * World S :=
  let g' := {| err := match err g with Some e => Some e | None => r end;
               goroutines := <[i := None]> (goroutines g);
               returned := returned g ++ [(i, r)] |} in
  match r, err g with
  | Some _, None => (g', cancel w)
  | _, _ => (g', w)
  end.

(** Goroutine [i] performs its next call, or returns. *)
Definition stepGoroutine {S : Type} `{Storage S} (st : Group * World S) (i : nat)
    : Group * World S :=
  let '(g, w) := st in
  match goroutines g !! i with
  | Some (Some (Ret r)) => goroutineReturns i r g w
  | Some (Some (Vis op k)) =>
      let '(x, w') := handle op w in
      ({| err := err g; goroutines := <[i := Some (k x)]> (goroutines g);
          returned := returned g |}, w')
  | _ => st
  end.

(** Goroutine [i] runs until it returns. *)
Definition finishGoroutine {S : Type} `{Storage S} (st : Group * World S) (i : nat)
    : Group * World S :=
  let '(g, w) := st in
  match goroutines g !! i with
  | Some (Some p) => let '(r, w') := run p w in goroutineReturns i r g w'
  | _ => st
  end.

(** [eg.Go] for each task, then [eg.Wait]. The schedule [sched] names the
    goroutine that moves next; when it is used up the goroutines still
    running finish one after the other. Every interleaving is the run of
    some schedule. [Wait] cancels the context before it returns. *)
Definition GoAndWait {S : Type} `{Storage S} (sched : list nat)
    (tasks : list (Prog (option error))) (w : World S)
    : option error * Group * World S :=
  let g0 := {| err := None; goroutines := map Some tasks; returned := [] |} in
  let st := foldl finishGoroutine (foldl stepGoroutine (g0, w) sched)
              (seq 0 (length tasks)) in
  (err (fst st), fst st, cancel (snd st)).

(** The blob group of [FetchSociArtifacts]. *)
Definition materializeBlobs {S : Type} `{Storage S} (sched : list nat)
    (fetcher : artifactFetcher) (blobs : list Descriptor) (w : World S)
    : option error * Group * World S :=
  GoAndWait sched (map (blobTask fetcher) blobs) w.

(** [FetchSociArtifacts(ctx, imageRef, indexDigest, store)], under the
    schedule [sched] of its goroutines: the index or the error, and the
    world afterwards. *)
Definition FetchSociArtifacts {S : Type} `{Storage S} (deps : Deps)
    (sched : list nat) (ctx : Context) (imageRef indexDigest : string)
    (store : S) : Result SociIndex * World S :=
  match run (fetchIndex deps imageRef indexDigest) (mkWorld store ctx []) with
  | (Err e, w) => (Err e, w)
  | (Ok (fetcher, dgst, indexReader, local), w) =>
      match run (decodeAndCache deps dgst indexReader local) w with
      | (Err e, w) => (Err e, w)
      | (Ok index, w) =>
          match materializeBlobs sched fetcher (Blobs index) w with
          | (Some e, _, w) => (Err e, w)
          | (None, _, w) => (Ok index, w)
          end
      end
  end.

End fs.

(* ------------------------------------------------------------------ *)
(** ** The ztoc schema: the table-based binary format *)

Module ztoc.

(** The schema declares six tables' worth of fields with [Ztoc] as the
    root type. A buffer in this format starts with the 32-bit little-endian
    offset of the root table; a table starts with the signed offset back to
    its vtable; the vtable lists, per field, the field's offset in the table
    or 0 when the field is absent. Reads outside the buffer fail. *)

(** [n] bytes at [pos], little-endian, as an unsigned number. *)
Fixpoint getLE (buf : Bytes) (pos : nat) (n : nat) : option Z :=
  match n with
  | O => Some 0
  | Datatypes.S n' =>
      b ← buf !! pos;
      rest ← getLE buf (Datatypes.S pos) n';
      Some (Z.of_N (Byte.to_N b) + 256 * rest)
  end.

Definition getAt (buf : Bytes) (pos : Z) (n : nat) : option Z :=
  if pos <? 0 then None else getLE buf (Z.to_nat pos) n.

Definition signed (bits : Z) (z : Z) : Z :=
  if z <? 2 ^ (bits - 1) then z else z - 2 ^ bits.

Definition u32 (z : Z) : Z := z mod 2 ^ 32.

Definition GetUOffsetT (buf : Bytes) (pos : Z) : option Z := getAt buf pos 4.
Definition GetSOffsetT (buf : Bytes) (pos : Z) : option Z := signed 32 <$> getAt buf pos 4.
Definition GetVOffsetT (buf : Bytes) (pos : Z) : option Z := getAt buf pos 2.
Definition GetInt64 (buf : Bytes) (pos : Z) : option Z := signed 64 <$> getAt buf pos 8.
Definition GetInt32 (buf : Bytes) (pos : Z) : option Z := signed 32 <$> getAt buf pos 4.
Definition GetUint32 (buf : Bytes) (pos : Z) : option Z := getAt buf pos 4.
Definition GetInt8 (buf : Bytes) (pos : Z) : option Z := signed 8 <$> getAt buf pos 1.

(** [Table.Offset]: the offset of the field with vtable slot [slot] inside
    the table at [tab], or 0. *)
Definition Offset (buf : Bytes) (tab : Z) (slot : Z) : option Z :=
  so ← GetSOffsetT buf tab;
  let vtable := u32 (tab - so) in
  size ← GetVOffsetT buf vtable;
  if slot <? size then GetVOffsetT buf (u32 (vtable + slot)) else Some 0.

(** [Table.Indirect]. *)
Definition Indirect (buf : Bytes) (off : Z) : option Z :=
  o ← GetUOffsetT buf off; Some (u32 (off + o)).

(** The bytes [[start, start + len)] of the buffer. *)
Definition slice (buf : Bytes) (start len : Z) : option Bytes :=
  if Z.of_nat (length buf) <? start + len then None
  else Some (take (Z.to_nat len) (drop (Z.to_nat start) buf)).

(** [Table.ByteVector]: a string or byte vector stored at [off]. *)
Definition ByteVector (buf : Bytes) (off : Z) : option Bytes :=
  o ← GetUOffsetT buf off;
  let at_ := u32 (off + o) in
  len ← GetUOffsetT buf at_;
  slice buf (u32 (at_ + 4)) len.

(** [Table.Vector] and [Table.VectorLen], for a field at offset [o] of [tab]. *)
Definition Vector (buf : Bytes) (tab o : Z) : option Z :=
  let off := u32 (o + tab) in
  x ← GetUOffsetT buf off; Some (u32 (u32 (off + x) + 4)).

Definition VectorLen (buf : Bytes) (tab o : Z) : option Z :=
  let off := u32 (o + tab) in
  x ← GetUOffsetT buf off; GetUOffsetT buf (u32 (off + x)).

(** Field accessors as the schema compiler generates them: a string field,
    a scalar field with its default, a sub-table, a vector. *)
Definition stringField (buf : Bytes) (tab slot : Z) : option Bytes :=
  o ← Offset buf tab slot;
  if o =? 0 then Some [] else ByteVector buf (u32 (o + tab)).

Definition scalarField (get : Bytes -> Z -> option Z) (default : Z)
    (buf : Bytes) (tab slot : Z) : option Z :=
  o ← Offset buf tab slot;
  if o =? 0 then Some default else get buf (u32 (o + tab)).

Definition tableField {A : Type} (decode : Bytes -> Z -> option A)
    (buf : Bytes) (tab slot : Z) : option (option A) :=
  o ← Offset buf tab slot;
  if o =? 0 then Some None
  else x ← Indirect buf (u32 (o + tab)); Some <$> decode buf x.

(** The elements [j, j + n) of a vector whose data starts at [x]. *)
Fixpoint elements {A : Type} (elem : Bytes -> Z -> option A) (buf : Bytes)
    (x : Z) (j : Z) (n : nat) : option (list A) :=
  match n with
  | O => Some []
  | Datatypes.S n' =>
      a ← elem buf (u32 (x + j * 4));
      rest ← elements elem buf x (j + 1) n';
      Some (a :: rest)
  end.

Definition vectorField {A : Type} (elem : Bytes -> Z -> option A)
    (buf : Bytes) (tab slot : Z) : option (list A) :=
  o ← Offset buf tab slot;
  if o =? 0 then Some []
  else
    x ← Vector buf tab o;
    n ← VectorLen buf tab o;
    elements elem buf x 0 (Z.to_nat n).

Definition tableElem {A : Type} (decode : Bytes -> Z -> option A)
    (buf : Bytes) (at_ : Z) : option A :=
  x ← Indirect buf at_; decode buf x.

Definition bytesField (buf : Bytes) (tab slot : Z) : option Bytes :=
  o ← Offset buf tab slot;
  if o =? 0 then Some [] else ByteVector buf (u32 (o + tab)).

Record Xattr : Type := mkXattr {
  key : Bytes;
  value : Bytes
}.

Record FileMetadata : Type := mkFileMetadata {
  name : Bytes;
  type : Bytes;
  uncompressed_offset : Z;
  uncompressed_size : Z;
  linkname : Bytes;
  mode : Z;
  uid : Z;
  gid : Z;
  uname : Bytes;
  gname : Bytes;
  mod_time : Bytes;
  devmajor : Z;
  devminor : Z;
  xattrs : list Xattr
}.

(** [CompressionAlgorithm]: Gzip = 1, Uncompressed = 2. *)
Definition Gzip : Z := 1.
Definition Uncompressed : Z := 2.

Record CompressionInfo : Type := mkCompressionInfo {
  compression_algorithm : Z;
  max_span_id : Z;
  span_digests : list Bytes;
  checkpoints : Bytes
}.

Record TOC : Type := mkTOC {
  metadata : list FileMetadata
}.

Record Ztoc : Type := mkZtoc {
  version : Bytes;
  build_tool_identifier : Bytes;
  compressed_archive_size : Z;
  uncompressed_archive_size : Z;
  toc : option TOC;
  compression_info : option CompressionInfo
}.

Definition decodeXattr (buf : Bytes) (tab : Z) : option Xattr :=
  k ← stringField buf tab 4;
  v ← stringField buf tab 6;
  Some {| key := k; value := v |}.

Definition decodeFileMetadata (buf : Bytes) (tab : Z) : option FileMetadata :=
  f_name ← stringField buf tab 4;
  f_type ← stringField buf tab 6;
  f_uoff ← scalarField GetInt64 0 buf tab 8;
  f_usize ← scalarField GetInt64 0 buf tab 10;
  f_link ← stringField buf tab 12;
  f_mode ← scalarField GetInt64 0 buf tab 14;
  f_uid ← scalarField GetUint32 0 buf tab 16;
  f_gid ← scalarField GetUint32 0 buf tab 18;
  f_uname ← stringField buf tab 20;
  f_gname ← stringField buf tab 22;
  f_mod ← stringField buf tab 24;
  f_major ← scalarField GetInt64 0 buf tab 26;
  f_minor ← scalarField GetInt64 0 buf tab 28;
  f_xattrs ← vectorField (tableElem decodeXattr) buf tab 30;
  Some {| name := f_name; type := f_type; uncompressed_offset := f_uoff;
          uncompressed_size := f_usize; linkname := f_link; mode := f_mode;
          uid := f_uid; gid := f_gid; uname := f_uname; gname := f_gname;
          mod_time := f_mod; devmajor := f_major; devminor := f_minor;
          xattrs := f_xattrs |}.

Definition decodeCompressionInfo (buf : Bytes) (tab : Z) : option CompressionInfo :=
  alg ← scalarField GetInt8 Gzip buf tab 4;
  msi ← scalarField GetInt32 0 buf tab 6;
  digests ← vectorField ByteVector buf tab 8;
  cps ← bytesField buf tab 10;
  Some {| compression_algorithm := alg; max_span_id := msi;
          span_digests := digests; checkpoints := cps |}.

Definition decodeTOC (buf : Bytes) (tab : Z) : option TOC :=
  md ← vectorField (tableElem decodeFileMetadata) buf tab 4;
  Some {| metadata := md |}.

Definition decodeZtoc (buf : Bytes) (tab : Z) : option Ztoc :=
  v ← stringField buf tab 4;
  bti ← stringField buf tab 6;
  cas ← scalarField GetInt64 0 buf tab 8;
  uas ← scalarField GetInt64 0 buf tab 10;
  t ← tableField decodeTOC buf tab 12;
  ci ← tableField decodeCompressionInfo buf tab 14;
  Some {| version := v; build_tool_identifier := bti;
          compressed_archive_size := cas; uncompressed_archive_size := uas;
          toc := t; compression_info := ci |}.

(** [root_type Ztoc]: the root table is the one designated by the offset at
    the start of the buffer. *)
Definition GetRootAsZtoc (buf : Bytes) : option Ztoc :=
  n ← GetUOffsetT buf 0; decodeZtoc buf n.

End ztoc.

(* ------------------------------------------------------------------ *)
(** ** A local store for the examples *)

(** Modelled from the spec: the local content store is the caller's and not
    among the sources. Section 4.1 describes it: a store keyed by digest;
    [fetch] yields the content or a not-found error, [push] writes the
    content under the descriptor's digest and overwrites an entry that is
    already there. A reader that fails makes the push fail. *)
#[export] Instance MemStore : Storage (gmap string Bytes) := {|
  storage_Fetch := fun s _ desc =>
    match s !! Digest desc with
    | Some b => Ok {| content := b; readErr := None |}
    | None => Err (errorString "not found")
    end;
  storage_Push := fun s _ desc reader =>
    match readErr reader with
    | Some e => (Some e, s)
    | None => (None, <[Digest desc := content reader]> s)
    end
|}.

(** A store that is broken: every call fails. *)
#[export] Instance BrokenStore : Storage unit := {|
  storage_Fetch := fun _ _ _ => Err (errorString "input/output error");
  storage_Push := fun s _ _ _ => (Some (errorString "input/output error"), s)
|}.

(** Modelled from the spec: a local store as the one above that honours
    the cancellation signal of section 5. Under a cancelled context every
    call fails with the context's error and changes nothing. *)
Record GuardedStore : Type := mkGuardedStore {
  guarded : gmap string Bytes
}.

#[export] Instance GuardedStore_Storage : Storage GuardedStore := {|
  storage_Fetch := fun s c desc =>
    if cancelled c then Err (errorString "context canceled")
    else storage_Fetch (guarded s) c desc;
  storage_Push := fun s c desc reader =>
    if cancelled c then (Some (errorString "context canceled"), s)
    else let '(res, m) := storage_Push (guarded s) c desc reader in
         (res, {| guarded := m |})
|}.

(** [present] for the store above. *)
Definition memPresent (s : gmap string Bytes) (g : string) : Prop :=
  is_Some (s !! g).

(* ------------------------------------------------------------------ *)
(** ** A registry, an index and three blobs for the examples *)

Module sample.

Import fs.

Definition imageRef : string := "example.com/repo:latest".
Definition locator : string := "example.com/repo".
Definition indexDigest : string := "sha256:aaaa".

Definition str (s : string) : Bytes := list_byte_of_string s.
Definition quoted (s : string) : Bytes := [x22] ++ str s ++ [x22].

Definition blobJSON (digest size : string) : Bytes :=
  str "{" ++ quoted "digest" ++ str ":" ++ quoted digest ++ str ","
          ++ quoted "size" ++ str ":" ++ str size ++ str "}".

(** The index document: three blobs. *)
Definition indexJSON : Bytes :=
  str "{" ++ quoted "blobs" ++ str ":["
    ++ blobJSON "sha256:b1" "3" ++ str ","
    ++ blobJSON "sha256:gone" "5" ++ str ","
    ++ blobJSON "sha256:b2" "2" ++ str "]}".

Definition blob1 : Descriptor := {| MediaType := ""; Digest := "sha256:b1"; Size := 3 |}.
Definition blobGone : Descriptor := {| MediaType := ""; Digest := "sha256:gone"; Size := 5 |}.
Definition blob2 : Descriptor := {| MediaType := ""; Digest := "sha256:b2"; Size := 2 |}.

Definition index : SociIndex := {| Blobs := [blob1; blobGone; blob2] |}.

Definition ok (b : Bytes) : Result Stream := Ok {| content := b; readErr := None |}.

(** The registry holds the index and two of the three blobs. *)
Definition registry (indexBytes : Bytes) : RemoteStorage := fun _ _ desc =>
  if String.eqb (Digest desc) indexDigest then ok indexBytes
  else if String.eqb (Digest desc) "sha256:b1" then ok (str "abc")
  else if String.eqb (Digest desc) "sha256:b2" then ok (str "de")
  else Err (errorString "not found").

Definition resolverFor (indexBytes : Bytes) : Resolver := fun _ _ ref =>
  if String.eqb ref "example.com/repo@sha256:aaaa" then
    Ok {| MediaType := "application/vnd.oci.image.manifest.v1+json";
          Digest := indexDigest; Size := Z.of_nat (length indexBytes) |}
  else Err (errorString "manifest unknown").

Definition noResolver : Resolver := fun _ _ _ => Err (errorString "manifest unknown").

(** The collaborators, for a registry that serves [indexBytes] as the index
    and a decoder [unmarshal] of valid JSON into the index type. *)
Definition depsFor (indexBytes : Bytes) (unmarshal : Bytes -> Result SociIndex) : Deps :=
  {| reference_Parse := fun ref =>
       if String.eqb ref imageRef then Ok {| Locator := locator; Object := "latest" |}
       else Err (errorString "invalid reference format");
     remote_NewRepository := fun _ => Ok (registry indexBytes);
     docker_NewResolver := resolverFor indexBytes;
     digest_Parse := fun s => Ok s;
     unmarshalSociIndex := unmarshal |}.

Definition deps : Deps := depsFor indexJSON (fun _ => Ok index).

Definition fetcher : artifactFetcher :=
  {| resolver := resolverFor indexJSON; remoteStore := registry indexJSON;
     refspec := {| Locator := locator; Object := "latest" |} |}.

(** A buffer in the ztoc format: version 0.9, sizes 1000 and 4096. *)
Definition ztocBytes : Bytes :=
  [x10; x00; x00; x00;
   x0c; x00; x18; x00; x04; x00; x00; x00; x08; x00; x10; x00;
   x0c; x00; x00; x00; x14; x00; x00; x00;
   xe8; x03; x00; x00; x00; x00; x00; x00;
   x00; x10; x00; x00; x00; x00; x00; x00;
   x03; x00; x00; x00; x30; x2e; x39; x00].

Definition background : Context := {| cancelled := false |}.

Definition emptyStore : gmap string Bytes := ∅.

Definition indexByDigest : Descriptor :=
  {| MediaType := ""; Digest := indexDigest; Size := 0 |}.

(** A fetcher whose resolver knows nothing. *)
Definition unresolving : artifactFetcher :=
  {| resolver := noResolver; remoteStore := registry indexJSON;
     refspec := {| Locator := locator; Object := "latest" |} |}.

(** The collaborators for an index that lists the two blobs the registry
    holds, and for a registry that serves a ztoc buffer as the index. *)
Definition depsAllThere : Deps :=
  depsFor indexJSON (fun _ => Ok {| Blobs := [blob1; blob2] |}).

Definition depsBinary (unmarshal : Bytes -> Result SociIndex) : Deps :=
  depsFor ztocBytes unmarshal.

End sample.

(* ------------------------------------------------------------------ *)
(** ** Vocabulary of the properties *)

(** The two log lines of the remote path and the events they leave. *)
Definition logRemote (desc : Descriptor) : Event :=
  EvLog Info [("digest", Digest desc)] "fetching artifact from remote".

Definition logZeroSize (desc : Descriptor) : Event :=
  EvLog Warn [("digest", Digest desc)] "size of descriptor is 0, trying to resolve it...".

(** The error [Fetch] returns when the resolver failed with [er], and the
    one it returns when the remote store failed with [ef] on [desc]. *)
Definition resolutionError (ref : string) (er : error) : error :=
  fmt_Errorf "size of descriptor is 0; unable to resolve: %w" []
    (fmt_Errorf "unable to resolve ref (%s): %w" [ref] er).

Definition remoteFetchError (desc : Descriptor) (ef : error) : error :=
  fmt_Errorf "unable to fetch descriptor (%v) from remote store: %w" [Digest desc] ef.

(** The pushes a history records, in order. *)
Definition pushEvents (tr : list Event) : list (Descriptor * Stream * option error) :=
  omap (fun ev => match ev with
                  | EvLocalPush d r res => Some (d, r, res)
                  | _ => None
                  end) tr.

(** What the sources rely on in a local store (spec, section 3 and 4.1):
    content is present under a digest or not; a push, failed or not, removes
    nothing, and a successful push makes its digest present. *)
Class AppendOnly (S : Type) `{Storage S} (present : S -> string -> Prop) : Prop := {
  push_keeps : forall s c d r res s' g,
    storage_Push s c d r = (res, s') -> present s g -> present s' g;
  push_adds : forall s c d r s',
    storage_Push s c d r = (None, s') -> present s' (Digest d)
}.

(** Every push that the history records as successful is still present. *)
Definition pushesPresent {S : Type} (present : S -> string -> Prop)
    (w : fs.World S) : Prop :=
  forall d r, EvLocalPush d r None ∈ fs.trace w -> present (fs.store w) (Digest d).

(** The first error of a list of goroutine results, in order. *)
Definition firstError (l : list (nat * option error)) : option error :=
  head (omap snd l).

(** What holds of a group of [n] goroutines at every moment: the goroutines
    that have returned are exactly those listed in [returned], each once,
    and the group's error is the first error returned. *)
Definition GroupInv (n : nat) (g : fs.Group) : Prop :=
  length (fs.goroutines g) = n
  /\ NoDup (fs.returned g).*1
  /\ (forall i, i ∈ (fs.returned g).*1 <-> fs.goroutines g !! i = Some None)
  /\ fs.err g = firstError (fs.returned g).


(** The delays [BackoffStrategy] computes for the attempts [attemptNum],
    [attemptNum + 1], ... of a request that gets no response, one draw of
    the random source per attempt; [None] when one of them panics. *)
Fixpoint retryWaits (min max : http.Duration) (attemptNum : Z) (srcs : list Z)
    : option (list http.Duration) :=
  match srcs with
  | [] => Some []
  | src :: rest =>
      d ← http.BackoffStrategy min max attemptNum None src;
      ds ← retryWaits min max (attemptNum + 1) rest;
      Some (d :: ds)
  end.

Definition total (ds : list Z) : Z := foldr Z.add 0 ds.

(** What a fetch from the local store shows: content it delivers is present
    under the descriptor's digest. *)
Class FetchSound (S : Type) `{Storage S} (present : S -> string -> Prop) : Prop := {
  fetch_present : forall s c d rc,
    storage_Fetch s c d = Ok rc -> present s (Digest d)
}.


(** A call whose answer [x] shows that digest [g] is in the local store: a
    local fetch that delivered, or a push that succeeded, under [g]. *)
Definition establishes (g : string) {X : Type} (op : fs.Op X) : X -> bool :=
  match op in fs.Op X return X -> bool with
  | fs.LocalFetch d =>
      fun x => match x with Ok _ => String.eqb (Digest d) g | Err _ => false end
  | fs.LocalPush d _ =>
      fun x => match x with None => String.eqb (Digest d) g | Some _ => false end
  | _ => fun _ => false
  end.

(** The program returns success only after some call of its has shown [g]
    to be in the local store ([known]: one already has). *)
Fixpoint Ensures (g : string) (known : bool) (p : fs.Prog (option error)) : Prop :=
  match p with
  | fs.Ret r => r = None -> known = true
  | fs.Vis op k => forall x, Ensures g (known || establishes g op x) (k x)
  end.

(** The blobs of the goroutines: a goroutine still running returns success
    only once its blob is in the store, and the blob of a goroutine that
    has returned success is in the store. *)
Definition BlobsStored {S : Type} (present : S -> string -> Prop)
    (blobs : list Descriptor) (st : fs.Group * fs.World S) : Prop :=
  (forall i blob p, blobs !! i = Some blob ->
     fs.goroutines (fst st) !! i = Some (Some p) ->
     exists known, Ensures (Digest blob) known p
                   /\ (known = true -> present (fs.store (snd st)) (Digest blob)))
  /\ (forall i blob, blobs !! i = Some blob ->
        (i, None) ∈ fs.returned (fst st) ->
        present (fs.store (snd st)) (Digest blob)).






(** The returns of the goroutines' functions along a schedule, in order. *)
Fixpoint returnsAlong {S : Type}
    (step : fs.Group * fs.World S -> nat -> fs.Group * fs.World S)
    (ret : fs.Group * fs.World S -> nat -> option (option error))
    (st : fs.Group * fs.World S) (l : list nat) : list (nat * option error) :=
  match l with
  | [] => []
  | i :: l =>
      match ret st i with Some r => [(i, r)] | None => [] end
      ++ returnsAlong step ret (step st i) l
  end.


(** A local store that honours cancellation: under a cancelled context a
    push fails and leaves the store as it is. *)
Class PushHonoursCancel (S : Type) `{Storage S} : Prop := {
  push_cancelled : forall s c d r,
    cancelled c = true -> exists e, storage_Push s c d r = (Some e, s)
}.


(** Every push the program can make is of a descriptor and a reader that
    are [allowed]. *)
Fixpoint PushesOnly {A : Type} (allowed : Descriptor -> Stream -> Prop)
    (p : fs.Prog A) : Prop :=
  match p with
  | fs.Ret _ => True
  | fs.Vis op k =>
      match op with
      | fs.LocalPush d r => allowed d r
      | _ => True
      end
      /\ forall x, PushesOnly allowed (k x)
  end.

(** Every push in the history is of a descriptor and a reader that are
    [allowed]. *)
Definition pushedOnly (allowed : Descriptor -> Stream -> Prop) (tr : list Event) : Prop :=
  forall d r res, EvLocalPush d r res ∈ tr -> allowed d r.

(* ------------------------------------------------------------------ *)
(** ** Properties of [Fetch] *)

Section FetchProperties.

Import fs.

Context {S : Type} `{Storage S}.

Lemma run_bind {A B : Type} (m : Prog A) (k : A -> Prog B) (w : World S) :
  run (bind m k) w = let '(a, w') := run m w in run (k a) w'.
Proof.
  revert w. induction m as [a | X op k' IH]; intros w; cbn.
  - reflexivity.
  - destruct (handle op w) as [x w']. apply IH.
Qed.

(** The trace only grows. *)
Lemma handle_trace_grows {X : Type} (op : Op X) (w : World S) :
  exists new, trace (snd (handle op w)) = trace w ++ new.
Proof.
  destruct op as [desc | desc reader | rsv ref | rs desc | rc | lvl fields msg];
    cbn; try (eexists; reflexivity).
  destruct (storage_Push (store w) (ctx w) desc reader); cbn. eexists; reflexivity.
Qed.

Lemma run_trace_grows {A : Type} (p : Prog A) (w : World S) :
  exists new, trace (snd (run p w)) = trace w ++ new.
Proof.
  revert w. induction p as [a | X op k IH]; intros w; cbn.
  - exists []. now rewrite app_nil_r.
  - destruct (handle_trace_grows op w) as [n1 H1].
    destruct (handle op w) as [x w'] eqn:E; cbn in H1.
    destruct (IH x w') as [n2 H2]. exists (n1 ++ n2).
    rewrite H2, H1. now rewrite app_assoc.
Qed.


(** C2. Local hit: when the local store's fetch succeeds, [Fetch] returns
    that stream with is-local = true; the only call it makes is the local
    fetch (no resolver, no remote store), and the store is unchanged. *)
Theorem Fetch_local_hit (f : artifactFetcher) (desc : Descriptor)
    (w : World S) (rc : Stream) :
  storage_Fetch (store w) (ctx w) desc = Ok rc ->
  fst (run (Fetch f desc) w) = Ok (rc, true)
  /\ trace (snd (run (Fetch f desc) w)) = trace w ++ [EvLocalFetch desc]
  /\ store (snd (run (Fetch f desc) w)) = store w.
Proof.
  intros Hloc. unfold Fetch. cbn. rewrite Hloc. cbn. auto.
Qed.

(** C1. Zero-size resolution: for a descriptor of size 0 that the local
    store does not deliver, the resolver is called, on the constructed
    reference, before any remote fetch. If it fails, [Fetch] returns the
    resolution error, which differs from every remote-fetch error, and the
    run ends there: the remote store is never called. If it succeeds, the
    one remote fetch follows, on the resolved descriptor. *)
Theorem Fetch_zero_size_resolves_first (f : artifactFetcher) (desc : Descriptor)
    (w : World S) (e : error) :
  Size desc = 0 ->
  storage_Fetch (store w) (ctx w) desc = Err e ->
  let ref := constructRef f desc in
  let first := [EvLocalFetch desc; logRemote desc; logZeroSize desc] in
  let out := run (Fetch f desc) w in
  match resolver f (trace w ++ first) (ctx w) ref with
  | Err er =>
      fst out = Err (resolutionError ref er)
      /\ trace (snd out) = trace w ++ first ++ [EvResolve ref]
      /\ (forall d, EvRemoteFetch d ∉ first ++ [EvResolve ref])
      /\ (forall d ef, resolutionError ref er <> remoteFetchError d ef)
  | Ok resolved =>
      trace (snd out) = trace w ++ first ++ [EvResolve ref; EvRemoteFetch resolved]
  end.
Proof.
  intros Hsize Hloc ref first out. subst out. unfold Fetch. cbn.
  rewrite Hloc. cbn. rewrite Hsize. cbn.
  fold ref. rewrite <- !app_assoc. cbn. fold (logRemote desc) (logZeroSize desc).
  fold first.
  destruct (resolver f (trace w ++ first) (ctx w) ref) as [resolved | er]; cbn.
  - rewrite <- !app_assoc. cbn.
    destruct (remoteStore f _ (ctx w) resolved); cbn;
      now rewrite <- !app_assoc.
  - rewrite <- !app_assoc. cbn. repeat split.
    + intros d Hin. subst first. cbn in Hin.
      repeat (apply elem_of_cons in Hin as [Hin | Hin]; [discriminate Hin |]).
      now apply elem_of_nil in Hin.
    + intros d ef Heq. discriminate Heq.
Qed.

End FetchProperties.

Section LocalErrorsAreMisses.

Import fs.

Context {S1 S2 : Type} `{Storage S1} `{Storage S2}.

(** C8. Every error of the local store's fetch is a silent miss. Take two
    runs of [Fetch] on the same descriptor, in the same context and after
    the same history, whose local stores fail with whatever errors [e1] and
    [e2]: both go on to the remote path (the log line, then the resolver
    for size 0, else the remote store), and they end with the same result
    and the same trace. So the result does not depend on the local error:
    it is not surfaced. *)
Theorem Fetch_local_error_discarded (f : artifactFetcher) (desc : Descriptor)
    (w1 : World S1) (w2 : World S2) (e1 e2 : error) :
  storage_Fetch (store w1) (ctx w1) desc = Err e1 ->
  storage_Fetch (store w2) (ctx w2) desc = Err e2 ->
  ctx w1 = ctx w2 ->
  trace w1 = trace w2 ->
  let out1 := run (Fetch f desc) w1 in
  let out2 := run (Fetch f desc) w2 in
  fst out1 = fst out2
  /\ trace (snd out1) = trace (snd out2)
  /\ store (snd out1) = store w1
  /\ exists rest,
       trace (snd out1) =
         trace w1 ++ [EvLocalFetch desc; logRemote desc] ++
           (if Size desc =? 0
            then [logZeroSize desc; EvResolve (constructRef f desc)]
            else [EvRemoteFetch desc]) ++ rest.
Proof.
  intros Hloc1 Hloc2 Hctx Htr out1 out2. subst out1 out2.
  destruct w1 as [s1 c1 t1], w2 as [s2 c2 t2]. cbn in Hloc1, Hloc2, Hctx, Htr.
  subst c2 t2. unfold Fetch. cbn. rewrite Hloc1, Hloc2. cbn.
  destruct (Size desc =? 0) eqn:Hsize; cbn.
  - destruct (resolver f _ c1 (constructRef f desc)) as [resolved | er]; cbn.
    + destruct (remoteStore f _ c1 resolved); cbn;
        (repeat split; try reflexivity; rewrite <- !app_assoc; cbn;
         eexists; reflexivity).
    + repeat split. exists []. rewrite <- !app_assoc. reflexivity.
  - destruct (remoteStore f _ c1 desc); cbn;
      (repeat split; exists []; rewrite <- !app_assoc; reflexivity).
Qed.

End LocalErrorsAreMisses.

(* ------------------------------------------------------------------ *)
(** ** Properties of the backoff and of the retry policy *)

Section Backoff.

Import http.

Lemma wrap64_id (z : Z) : MinInt64 <= z <= MaxInt64 -> wrap64 z = z.
Proof.
  unfold MinInt64, MaxInt64, wrap64. intros Hz.
  rewrite Z.mod_small by lia. lia.
Qed.

Lemma quot64_small (d divisor : Z) :
  0 < divisor -> 0 <= d <= MaxInt64 -> quot64 d divisor = d ÷ divisor.
Proof.
  intros Hdiv Hd. unfold quot64. apply wrap64_id.
  assert (0 <= d ÷ divisor) by (apply Z.quot_pos; lia).
  assert (d ÷ divisor <= d) by (apply Z.quot_le_upper_bound; nia).
  unfold MinInt64, MaxInt64 in *. lia.
Qed.

(** [Jitter] returns a value exactly when the bound of its random draw is
    positive. *)
Lemma Jitter_defined_iff (duration divisor src : Z) :
  (exists r, Jitter duration divisor src = Some r)
  <-> divisor <> 0 /\ 1 <= quot64 duration divisor.
Proof.
  unfold Jitter, Int63n. split.
  - intros [r Hr]. destruct (Z.eqb_spec divisor 0); [discriminate |].
    destruct (Z.leb_spec (quot64 duration divisor) 0); [discriminate |]. lia.
  - intros [Hd Hq]. destruct (Z.eqb_spec divisor 0); [contradiction |].
    destruct (Z.leb_spec (quot64 duration divisor) 0); [lia |]. eauto.
Qed.

(** Where the draw is defined and the sum fits, [Jitter] lands in
    [[duration, duration + duration/divisor)]. *)
Lemma Jitter_range (duration divisor src : Z) :
  0 < divisor -> divisor <= duration ->
  duration + duration ÷ divisor <= MaxInt64 ->
  exists r, Jitter duration divisor src = Some r
            /\ duration <= r < duration + duration ÷ divisor.
Proof.
  intros Hdiv Hle Hfit.
  assert (Hq : 1 <= duration ÷ divisor).
  { apply Z.quot_le_lower_bound; lia. }
  assert (Hd : 0 <= duration <= MaxInt64) by (unfold MaxInt64 in *; lia).
  unfold Jitter, Int63n. rewrite quot64_small by assumption.
  destruct (Z.eqb_spec divisor 0); [lia |].
  destruct (Z.leb_spec (duration ÷ divisor) 0); [lia |].
  pose proof (Z.mod_pos_bound src (duration ÷ divisor) ltac:(lia)) as Hm.
  eexists. split; [reflexivity |].
  rewrite wrap64_id by (unfold MinInt64, MaxInt64 in *; lia). lia.
Qed.

(** Without a retry-after hint the base delay is limited by [max]. *)
Lemma DefaultBackoff_le_max (min max attemptNum : Z) (resp : option Response) :
  retryAfterHint resp = None -> DefaultBackoff min max attemptNum resp <= max.
Proof.
  intros Hhint. unfold DefaultBackoff. rewrite Hhint. cbv zeta.
  destruct (inInt64 (2 ^ attemptNum * min) && (2 ^ attemptNum * min <=? max)) eqn:E.
  - apply andb_true_iff in E as [_ E]. lia.
  - lia.
Qed.

(** Without a hint, and with both waits at least [lo], so is the base delay. *)
Lemma DefaultBackoff_ge (lo min max attemptNum : Z) (resp : option Response) :
  retryAfterHint resp = None -> 0 <= attemptNum -> 0 <= lo ->
  lo <= min -> lo <= max ->
  lo <= DefaultBackoff min max attemptNum resp.
Proof.
  intros Hhint Hk Hlo Hmin Hmax. unfold DefaultBackoff. rewrite Hhint. cbv zeta.
  destruct (inInt64 (2 ^ attemptNum * min) && (2 ^ attemptNum * min <=? max)).
  - assert (1 <= 2 ^ attemptNum) by (apply (Z.pow_le_mono_r 2 0); lia). nia.
  - exact Hmax.
Qed.

(** C5, as amended. The base delay never exceeds [max] when the response
    carries no retry-after hint. Whenever the base delay is at least the
    divisor (8 ns) and base + base/8 fits a duration, [BackoffStrategy]
    computes a delay, and it is at least the base delay and strictly less
    than base + base/8, hence less than 1.125 times the base delay. Both
    conditions hold without a hint for attempts from 0 on when the two
    configured waits are at least 8 ns and max + max/8 fits. *)
Theorem BackoffStrategy_bounds (min max attemptNum : Z) (resp : option Response)
    (src : Z) :
  let base := DefaultBackoff min max attemptNum resp in
  (retryAfterHint resp = None -> base <= max)
  /\ (8 <= base -> base + base ÷ 8 <= MaxInt64 ->
      exists delay, BackoffStrategy min max attemptNum resp src = Some delay
                    /\ base <= delay
                    /\ delay < base + base ÷ 8
                    /\ 8 * delay < 9 * base)
  /\ (retryAfterHint resp = None -> 0 <= attemptNum ->
      8 <= min -> 8 <= max -> max + max ÷ 8 <= MaxInt64 ->
      8 <= base /\ base + base ÷ 8 <= MaxInt64).
Proof.
  intros base. split; [| split].
  - intros Hhint. apply DefaultBackoff_le_max, Hhint.
  - intros Hbase Hfit. unfold BackoffStrategy. fold base.
    destruct (Jitter_range base 8 src) as [r [Hr Hrange]]; try lia.
    exists r. split; [exact Hr |].
    pose proof (Z.quot_rem' base 8) as Hqr.
    pose proof (Z.rem_bound_pos base 8 ltac:(lia) ltac:(lia)) as Hrem.
    lia.
  - intros Hhint Hk Hmin Hmax Hfit.
    pose proof (DefaultBackoff_le_max min max attemptNum resp Hhint) as Hle.
    pose proof (DefaultBackoff_ge 8 min max attemptNum resp Hhint Hk
                  ltac:(lia) Hmin Hmax) as Hge.
    fold base in Hle, Hge. split; [exact Hge |].
    assert (base ÷ 8 <= max ÷ 8) by (apply Z.quot_le_mono; lia). lia.
Qed.

(** C6. For a response with status 429, or 500 to 599 other than 501,
    [RetryStrategy] answers retry; for status 501 and for 200 to 399 it
    answers not to retry. *)
Theorem RetryStrategy_classification (resp : Response) :
  let s := StatusCode resp in
  let retry := fst (fst (RetryStrategy (Some resp) None)) in
  (s = 429 \/ (500 <= s <= 599 /\ s <> 501) -> retry = true)
  /\ (s = 501 \/ 200 <= s <= 399 -> retry = false).
Proof.
  intros s retry. subst retry. unfold RetryStrategy, DefaultRetryPolicy.
  cbv zeta. fold s.
  destruct (Z.eqb_spec s 429) as [E429 | N429]; cbn.
  - split; [reflexivity | lia].
  - destruct (Z.leb_spec 500 s), (Z.leb_spec s 599), (Z.eqb_spec s 501); cbn;
      split; intros; try reflexivity; lia.
Qed.

End Backoff.

(* ------------------------------------------------------------------ *)
(** ** The local store only grows *)

Section Persistence.

Import fs.

Context {S : Type} `{Storage S} (present : S -> string -> Prop)
        `{!AppendOnly S present}.

Lemma handle_pushesPresent {X : Type} (op : Op X) (w : World S) :
  pushesPresent present w -> pushesPresent present (snd (handle op w)).
Proof.
  intros Hinv.
  destruct op as [desc | desc reader | rsv ref | rs desc | rc | lvl fields msg];
    cbn; unfold record;
    try (intros d r Hin; cbn in Hin; apply elem_of_app in Hin as [Hin | Hin];
         [ exact (Hinv d r Hin)
         | apply list_elem_of_singleton in Hin; discriminate Hin ]).
  destruct (storage_Push (store w) (ctx w) desc reader) as [res s'] eqn:Hpush.
  cbn. intros d r Hin. apply elem_of_app in Hin as [Hin | Hin].
  - eapply push_keeps; [exact Hpush | exact (Hinv d r Hin)].
  - apply list_elem_of_singleton in Hin. injection Hin as -> -> <-.
    eapply push_adds. exact Hpush.
Qed.

Lemma run_pushesPresent {A : Type} (p : Prog A) (w : World S) :
  pushesPresent present w -> pushesPresent present (snd (run p w)).
Proof.
  revert w. induction p as [a | X op k IH]; intros w Hinv; cbn.
  - exact Hinv.
  - pose proof (handle_pushesPresent op w Hinv) as Hh.
    destruct (handle op w) as [x w']. now apply IH.
Qed.

Lemma cancel_pushesPresent (w : World S) :
  pushesPresent present w -> pushesPresent present (cancel w).
Proof. intros Hinv d r Hin. exact (Hinv d r Hin). Qed.

Lemma goroutineReturns_pushesPresent (i : nat) (r : option error) (g : Group)
    (w : World S) :
  pushesPresent present w ->
  pushesPresent present (snd (goroutineReturns i r g w)).
Proof.
  intros Hinv. unfold goroutineReturns.
  destruct r, (err g); cbn; exact Hinv.
Qed.

Lemma stepGoroutine_pushesPresent (st : Group * World S) (i : nat) :
  pushesPresent present (snd st) ->
  pushesPresent present (snd (stepGoroutine st i)).
Proof.
  destruct st as [g w]. cbn. intros Hinv.
  destruct (goroutines g !! i) as [[[r | X op k] |] |]; cbn; try exact Hinv.
  - now apply goroutineReturns_pushesPresent.
  - pose proof (handle_pushesPresent op w Hinv) as Hh.
    destruct (handle op w) as [x w']. exact Hh.
Qed.

Lemma finishGoroutine_pushesPresent (st : Group * World S) (i : nat) :
  pushesPresent present (snd st) ->
  pushesPresent present (snd (finishGoroutine st i)).
Proof.
  destruct st as [g w]. cbn. intros Hinv.
  destruct (goroutines g !! i) as [[p |] |]; cbn; try exact Hinv.
  pose proof (run_pushesPresent p w Hinv) as Hr.
  destruct (run p w) as [r w']. now apply goroutineReturns_pushesPresent.
Qed.

Lemma foldl_pushesPresent (f : Group * World S -> nat -> Group * World S)
    (l : list nat) (st : Group * World S) :
  (forall st i, pushesPresent present (snd st) ->
                pushesPresent present (snd (f st i))) ->
  pushesPresent present (snd st) ->
  pushesPresent present (snd (foldl f st l)).
Proof.
  intros Hf. revert st. induction l as [| i l IH]; intros st Hinv; cbn.
  - exact Hinv.
  - apply IH, Hf, Hinv.
Qed.

Lemma GoAndWait_pushesPresent (sched : list nat)
    (tasks : list (Prog (option error))) (w : World S) :
  pushesPresent present w ->
  pushesPresent present (snd (GoAndWait sched tasks w)).
Proof.
  intros Hinv. unfold GoAndWait. cbn. apply cancel_pushesPresent.
  apply foldl_pushesPresent; [apply finishGoroutine_pushesPresent |].
  apply foldl_pushesPresent; [apply stepGoroutine_pushesPresent |].
  exact Hinv.
Qed.

Lemma FetchSociArtifacts_pushesPresent (deps : Deps) (sched : list nat)
    (c : Context) (imageRef indexDigest : string) (st : S) :
  pushesPresent present
    (snd (FetchSociArtifacts deps sched c imageRef indexDigest st)).
Proof.
  unfold FetchSociArtifacts.
  assert (H0 : pushesPresent present (mkWorld st c [])).
  { intros d r Hin. cbn in Hin. now apply elem_of_nil in Hin. }
  pose proof (run_pushesPresent (fetchIndex deps imageRef indexDigest) _ H0) as H1.
  destruct (run (fetchIndex deps imageRef indexDigest) (mkWorld st c []))
    as [[[[[fetcher dgst] rc] local] | e] w1]; cbn in H1; [| exact H1].
  pose proof (run_pushesPresent (decodeAndCache deps dgst rc local) _ H1) as H2.
  destruct (run (decodeAndCache deps dgst rc local) w1) as [[index | e] w2];
    cbn in H2; [| exact H2].
  pose proof (GoAndWait_pushesPresent sched
                (map (blobTask fetcher) (Blobs index)) w2 H2) as H3.
  unfold materializeBlobs.
  destruct (GoAndWait sched (map (blobTask fetcher) (Blobs index)) w2)
    as [[[e |] g] w3]; exact H3.
Qed.

End Persistence.

(* ------------------------------------------------------------------ *)
(** ** The goroutine group *)


Section GroupProperties.

Import fs.

Context {S : Type} `{Storage S}.

Lemma firstError_snoc (l : list (nat * option error)) (i : nat) (r : option error) :
  firstError (l ++ [(i, r)]) =
  match firstError l with Some e => Some e | None => r end.
Proof.
  unfold firstError. rewrite omap_app. cbn.
  destruct (omap snd l) as [| e l']; cbn.
  - now destruct r.
  - reflexivity.
Qed.

Lemma firstError_None (l : list (nat * option error)) :
  firstError l = None <-> forall i r, (i, r) ∈ l -> r = None.
Proof.
  unfold firstError. induction l as [| [j [e |]] l IH]; cbn.
  - split; [intros _ i r Hin; now apply elem_of_nil in Hin | reflexivity].
  - split; [discriminate |]. intros Hall.
    specialize (Hall j (Some e) ltac:(left)). discriminate Hall.
  - rewrite IH. split.
    + intros Hall i r Hin. apply elem_of_cons in Hin as [Heq | Hin].
      * now injection Heq as -> ->.
      * now apply (Hall i).
    + intros Hall i r Hin. apply (Hall i). now right.
Qed.

Lemma goroutineReturns_inv (n i : nat) (r : option error) (g : Group)
    (w : World S) (p : Prog (option error)) :
  goroutines g !! i = Some (Some p) ->
  GroupInv n g -> GroupInv n (fst (goroutineReturns i r g w)).
Proof.
  intros Hrun (Hlen & Hnd & Hiff & Herr).
  assert (Hi : (i < length (goroutines g))%nat) by (eapply lookup_lt_Some; eauto).
  assert (Hnot : i ∉ (returned g).*1).
  { intros Hin. apply Hiff in Hin. congruence. }
  assert (Hg : GroupInv n
            {| err := match err g with Some e => Some e | None => r end;
               goroutines := <[i := None]> (goroutines g);
               returned := returned g ++ [(i, r)] |}).
  { unfold GroupInv; cbn. repeat split.
    - now rewrite length_insert.
    - rewrite fmap_app. cbn. apply NoDup_app. repeat split; [exact Hnd | | apply NoDup_singleton].
      intros x Hx Hx'. apply list_elem_of_singleton in Hx'. now subst x.
    - rewrite fmap_app. cbn. intros Hin. apply elem_of_app in Hin as [Hin | Hin].
      + assert (i0 <> i) by (intros ->; contradiction).
        rewrite list_lookup_insert_ne by congruence. now apply Hiff.
      + apply list_elem_of_singleton in Hin. subst i0.
        now apply list_lookup_insert_eq.
    - rewrite fmap_app. cbn. intros Hl. apply elem_of_app.
      destruct (decide (i0 = i)) as [-> | Hne].
      + right. now apply list_elem_of_singleton.
      + left. apply Hiff. now rewrite list_lookup_insert_ne in Hl by congruence.
    - rewrite firstError_snoc, <- Herr. reflexivity. }
  unfold goroutineReturns. destruct r, (err g); exact Hg.
Qed.

Lemma stepGoroutine_inv (n : nat) (st : Group * World S) (i : nat) :
  GroupInv n (fst st) -> GroupInv n (fst (stepGoroutine st i)).
Proof.
  destruct st as [g w]. cbn. intros Hinv.
  destruct (goroutines g !! i) as [[[r | X op k] |] |] eqn:Hl; cbn; try exact Hinv.
  - eapply goroutineReturns_inv; eauto.
  - destruct (handle op w) as [x w']. cbn.
    destruct Hinv as (Hlen & Hnd & Hiff & Herr).
    assert (Hnot : i ∉ (returned g).*1).
    { intros Hin. apply Hiff in Hin. congruence. }
    unfold GroupInv; cbn. repeat split; try assumption.
    + now rewrite length_insert.
    + intros Hin. assert (i0 <> i) by (intros ->; contradiction).
      rewrite list_lookup_insert_ne by congruence. now apply Hiff.
    + intros Hl'. destruct (decide (i0 = i)) as [-> | Hne].
      * rewrite list_lookup_insert_eq in Hl' by (eapply lookup_lt_Some; eauto).
        discriminate Hl'.
      * apply Hiff. now rewrite list_lookup_insert_ne in Hl' by congruence.
Qed.

Lemma finishGoroutine_inv (n : nat) (st : Group * World S) (i : nat) :
  GroupInv n (fst st) -> GroupInv n (fst (finishGoroutine st i)).
Proof.
  destruct st as [g w]. cbn. intros Hinv.
  destruct (goroutines g !! i) as [[p |] |] eqn:Hl; cbn; try exact Hinv.
  destruct (run p w) as [r w']. eapply goroutineReturns_inv; eauto.
Qed.

Lemma foldl_inv (n : nat) (f : Group * World S -> nat -> Group * World S)
    (l : list nat) (st : Group * World S) :
  (forall st i, GroupInv n (fst st) -> GroupInv n (fst (f st i))) ->
  GroupInv n (fst st) -> GroupInv n (fst (foldl f st l)).
Proof.
  intros Hf. revert st. induction l as [| i l IH]; intros st Hinv; cbn.
  - exact Hinv.
  - apply IH, Hf, Hinv.
Qed.

(** A goroutine that has returned stays so. *)
Lemma finishGoroutine_stable (st : Group * World S) (i j : nat) :
  goroutines (fst st) !! j = Some None ->
  goroutines (fst (finishGoroutine st i)) !! j = Some None.
Proof.
  destruct st as [g w]. cbn. intros Hj.
  destruct (goroutines g !! i) as [[p |] |] eqn:Hl; cbn; try exact Hj.
  destruct (run p w) as [r w'].
  assert (Hne : i <> j) by congruence.
  unfold goroutineReturns. destruct r, (err g); cbn;
    now rewrite list_lookup_insert_ne.
Qed.

Lemma finishGoroutine_finishes (st : Group * World S) (i : nat) :
  (i < length (goroutines (fst st)))%nat ->
  goroutines (fst (finishGoroutine st i)) !! i = Some None.
Proof.
  destruct st as [g w]. cbn. intros Hi.
  destruct (goroutines g !! i) as [[p |] |] eqn:Hl; cbn.
  - destruct (run p w) as [r w'].
    unfold goroutineReturns. destruct r, (err g); cbn;
      now apply list_lookup_insert_eq.
  - exact Hl.
  - apply lookup_ge_None in Hl. lia.
Qed.

Lemma finishGoroutine_length (st : Group * World S) (i : nat) :
  length (goroutines (fst (finishGoroutine st i))) = length (goroutines (fst st)).
Proof.
  destruct st as [g w]. cbn.
  destruct (goroutines g !! i) as [[p |] |]; cbn; try reflexivity.
  destruct (run p w) as [r w'].
  unfold goroutineReturns. destruct r, (err g); cbn; apply length_insert.
Qed.

Lemma foldl_finish_all (l : list nat) (st : Group * World S) (j : nat) :
  (j < length (goroutines (fst st)))%nat ->
  j ∈ l \/ goroutines (fst st) !! j = Some None ->
  goroutines (fst (foldl finishGoroutine st l)) !! j = Some None.
Proof.
  revert st. induction l as [| i l IH]; intros st Hj Hcase; cbn.
  - destruct Hcase as [Hin | Hdone]; [now apply elem_of_nil in Hin | exact Hdone].
  - apply IH; [now rewrite finishGoroutine_length |].
    destruct Hcase as [Hin | Hdone].
    + apply elem_of_cons in Hin as [-> | Hin]; [| now left].
      right. now apply finishGoroutine_finishes.
    + right. now apply finishGoroutine_stable.
Qed.

End GroupProperties.

(* ------------------------------------------------------------------ *)
(** ** Properties of [FetchSociArtifacts] *)


Section Materialize.

Import fs.

Context {S : Type} `{Storage S}.

#[local] Arguments Fetch : simpl never.

Lemma pushEvents_app (l k : list Event) :
  pushEvents (l ++ k) = pushEvents l ++ pushEvents k.
Proof. apply omap_app. Qed.

(** [Fetch] reads: it leaves the store and the context alone and pushes
    nothing. *)
Lemma Fetch_frame (f : artifactFetcher) (desc : Descriptor) (w : World S) :
  store (snd (run (Fetch f desc) w)) = store w
  /\ ctx (snd (run (Fetch f desc) w)) = ctx w
  /\ pushEvents (trace (snd (run (Fetch f desc) w))) = pushEvents (trace w).
Proof.
  unfold Fetch. cbn.
  destruct (storage_Fetch (store w) (ctx w) desc); cbn.
  { rewrite pushEvents_app. cbn. now rewrite app_nil_r. }
  destruct (Size desc =? 0); cbn.
  - destruct (resolver f _ (ctx w) (constructRef f desc)) as [resolved | er]; cbn.
    + destruct (remoteStore f _ (ctx w) resolved); cbn;
        rewrite !pushEvents_app; cbn; now rewrite !app_nil_r.
    + rewrite !pushEvents_app; cbn; now rewrite !app_nil_r.
  - destruct (remoteStore f _ (ctx w) desc); cbn;
      rewrite !pushEvents_app; cbn; now rewrite !app_nil_r.
Qed.

Lemma fetchIndex_frame (deps : Deps) (imageRef indexDigest : string) (w : World S) :
  store (snd (run (fetchIndex deps imageRef indexDigest) w)) = store w
  /\ ctx (snd (run (fetchIndex deps imageRef indexDigest) w)) = ctx w
  /\ pushEvents (trace (snd (run (fetchIndex deps imageRef indexDigest) w)))
     = pushEvents (trace w).
Proof.
  unfold fetchIndex.
  destruct (reference_Parse deps imageRef) as [refspec | e]; [| now cbn].
  destruct (newRemoteStore deps refspec) as [remote | e]; [| now cbn].
  unfold newArtifactFetcher. cbn.
  destruct (digest_Parse deps indexDigest) as [dgst | e]; cbn.
  2: { rewrite !pushEvents_app; cbn; now rewrite !app_nil_r. }
  rewrite run_bind.
  match goal with |- context [run (Fetch ?f ?d) ?w0] =>
    pose proof (Fetch_frame f d w0) as (Hs & Hc & Hp);
    destruct (run (Fetch f d) w0) as [[[rc local] | e] w1]
  end; cbn in *; rewrite Hs, Hc, Hp, pushEvents_app; cbn;
    now rewrite app_nil_r.
Qed.

(** The trace of a group only grows. *)
Lemma goroutineReturns_trace (i : nat) (r : option error) (g : Group) (w : World S) :
  trace (snd (goroutineReturns i r g w)) = trace w.
Proof. unfold goroutineReturns. now destruct r, (err g). Qed.

Lemma stepGoroutine_trace_grows (st : Group * World S) (i : nat) :
  exists new, trace (snd (stepGoroutine st i)) = trace (snd st) ++ new.
Proof.
  destruct st as [g w]. cbn.
  destruct (goroutines g !! i) as [[[r | X op k] |] |]; cbn;
    try (exists []; now rewrite app_nil_r).
  - exists []. now rewrite goroutineReturns_trace, app_nil_r.
  - pose proof (handle_trace_grows op w) as Hh.
    destruct (handle op w) as [x w']. exact Hh.
Qed.

Lemma finishGoroutine_trace_grows (st : Group * World S) (i : nat) :
  exists new, trace (snd (finishGoroutine st i)) = trace (snd st) ++ new.
Proof.
  destruct st as [g w]. cbn.
  destruct (goroutines g !! i) as [[p |] |]; cbn;
    try (exists []; now rewrite app_nil_r).
  pose proof (run_trace_grows p w) as Hr.
  destruct (run p w) as [r w']. now rewrite goroutineReturns_trace.
Qed.

Lemma foldl_trace_grows (f : Group * World S -> nat -> Group * World S)
    (l : list nat) (st : Group * World S) :
  (forall st i, exists new, trace (snd (f st i)) = trace (snd st) ++ new) ->
  exists new, trace (snd (foldl f st l)) = trace (snd st) ++ new.
Proof.
  intros Hf. revert st. induction l as [| i l IH]; intros st; cbn.
  - exists []. now rewrite app_nil_r.
  - destruct (IH (f st i)) as [n2 H2]. destruct (Hf st i) as [n1 H1].
    exists (n1 ++ n2). now rewrite H2, H1, app_assoc.
Qed.

Lemma GoAndWait_trace_grows (sched : list nat) (tasks : list (Prog (option error)))
    (w : World S) :
  exists new, trace (snd (GoAndWait sched tasks w)) = trace w ++ new.
Proof.
  unfold GoAndWait. cbn.
  match goal with |- context [foldl finishGoroutine ?st0 ?l] =>
    destruct (foldl_trace_grows finishGoroutine l st0 finishGoroutine_trace_grows)
      as [n2 H2]
  end.
  match goal with H : context [foldl stepGoroutine ?st0 ?l] |- _ =>
    destruct (foldl_trace_grows stepGoroutine l st0 stepGoroutine_trace_grows)
      as [n1 H1]
  end.
  exists (n1 ++ n2). rewrite H2, H1. cbn. now rewrite app_assoc.
Qed.

End Materialize.

Section IndexDecoding.

Import fs.

Context {S : Type} `{Storage S}.

#[local] Arguments Fetch : simpl never.
#[local] Arguments materializeBlobs : simpl never.
#[local] Arguments GoAndWait : simpl never.

(** What [FetchSociArtifacts] does after the index stream was fetched, when
    draining or decoding fails: close the stream, return that error. *)
Lemma FetchSociArtifacts_fails_after_close (deps : Deps) (sched : list nat)
    (c : Context) (imageRef indexDigest : string) (st : S)
    (fetcher : artifactFetcher) (dgst : string) (rc : Stream) (local : bool)
    (w1 : World S) (e : error) :
  run (fetchIndex deps imageRef indexDigest) (mkWorld st c [])
    = (Ok (fetcher, dgst, rc, local), w1) ->
  readErr rc = Some e
  \/ (readErr rc = None
      /\ json.Unmarshal (unmarshalSociIndex deps) (content rc) = Err e) ->
  let out := FetchSociArtifacts deps sched c imageRef indexDigest st in
  fst out = Err e /\ trace (snd out) = trace w1 ++ [EvClose rc]
  /\ store (snd out) = store w1.
Proof.
  intros Hfetch Hfail out. subst out. unfold FetchSociArtifacts.
  rewrite Hfetch. unfold decodeAndCache, io_Copy. cbn.
  destruct Hfail as [Hread | [Hread Hdec]]; rewrite Hread; cbn.
  - auto.
  - rewrite Hdec. cbn. auto.
Qed.

(** C9. Decoding comes before the push and before the blob group: when
    decoding the index bytes fails, [FetchSociArtifacts] returns that error
    right after closing the stream; its history has no push, no blob was
    fetched, and the local store is the one passed in. *)
Theorem FetchSociArtifacts_decode_error_leaves_store (deps : Deps)
    (sched : list nat) (c : Context) (imageRef indexDigest : string) (st : S)
    (fetcher : artifactFetcher) (dgst : string) (rc : Stream) (local : bool)
    (w1 : World S) (e : error) :
  run (fetchIndex deps imageRef indexDigest) (mkWorld st c [])
    = (Ok (fetcher, dgst, rc, local), w1) ->
  readErr rc = None ->
  json.Unmarshal (unmarshalSociIndex deps) (content rc) = Err e ->
  let out := FetchSociArtifacts deps sched c imageRef indexDigest st in
  fst out = Err e
  /\ trace (snd out) = trace w1 ++ [EvClose rc]
  /\ pushEvents (trace (snd out)) = []
  /\ store (snd out) = st.
Proof.
  intros Hfetch Hread Hdec out.
  destruct (FetchSociArtifacts_fails_after_close deps sched c imageRef
              indexDigest st fetcher dgst rc local w1 e Hfetch
              (or_intror (conj Hread Hdec))) as (Hres & Htr & Hst).
  pose proof (fetchIndex_frame deps imageRef indexDigest (mkWorld st c []))
    as (Hs & _ & Hp).
  rewrite Hfetch in Hs, Hp. cbn in Hs, Hp.
  subst out. repeat split; try assumption.
  - rewrite Htr, pushEvents_app, Hp. reflexivity.
  - now rewrite Hst.
Qed.

(** C7, as amended. Once the index stream is fetched, [FetchSociArtifacts]
    closes it next. A stream that fails while being drained makes the call
    fail with the read error. Otherwise the complete content is decoded by
    [json.Unmarshal], as JSON text and not as the binary table format:
    content that is not valid JSON is refused with the scanner's syntax
    error, any decoding failure is returned as it is with nothing done
    after the close (so nothing is retried), and an index that is returned
    is the decoding of the complete content. *)
Theorem FetchSociArtifacts_decodes_json (deps : Deps) (sched : list nat)
    (c : Context) (imageRef indexDigest : string) (st : S)
    (fetcher : artifactFetcher) (dgst : string) (rc : Stream) (local : bool)
    (w1 : World S) :
  run (fetchIndex deps imageRef indexDigest) (mkWorld st c [])
    = (Ok (fetcher, dgst, rc, local), w1) ->
  let out := FetchSociArtifacts deps sched c imageRef indexDigest st in
  (exists rest, trace (snd out) = trace w1 ++ EvClose rc :: rest)
  /\ (forall e, readErr rc = Some e ->
        fst out = Err e /\ trace (snd out) = trace w1 ++ [EvClose rc])
  /\ (readErr rc = None ->
        (forall e, json.checkValid (content rc) = Some e ->
           fst out = Err e /\ trace (snd out) = trace w1 ++ [EvClose rc])
        /\ (forall e, json.Unmarshal (unmarshalSociIndex deps) (content rc) = Err e ->
              fst out = Err e /\ trace (snd out) = trace w1 ++ [EvClose rc])
        /\ (forall index, fst out = Ok index ->
              json.Unmarshal (unmarshalSociIndex deps) (content rc) = Ok index)).
Proof.
  intros Hfetch out.
  pose proof (FetchSociArtifacts_fails_after_close deps sched c imageRef
                indexDigest st fetcher dgst rc local w1) as Hfail.
  specialize (fun e => Hfail e Hfetch). cbv zeta in Hfail. fold out in Hfail.
  split; [| split].
  - clear Hfail. subst out. unfold FetchSociArtifacts. rewrite Hfetch.
    unfold decodeAndCache, io_Copy. cbn.
    destruct (readErr rc) as [e |]; cbn; [now exists [] |].
    destruct (json.Unmarshal (unmarshalSociIndex deps) (content rc))
      as [index | e]; cbn; [| now exists []].
    destruct local; cbn.
    + destruct (GoAndWait_trace_grows sched (map (blobTask fetcher) (Blobs index))
                  (record (EvClose rc) w1)) as [n2 H2].
      unfold materializeBlobs.
      destruct (GoAndWait sched (map (blobTask fetcher) (Blobs index))
                  (record (EvClose rc) w1)) as [[[e |] g] w3];
        cbn in H2 |- *; rewrite H2, <- !app_assoc; cbn; eauto.
    + destruct (storage_Push (store w1) (ctx w1) _ _) as [[e |] s']; cbn.
      * rewrite <- !app_assoc. cbn. eauto.
      * match goal with |- context [materializeBlobs _ _ _ ?w0] =>
          destruct (GoAndWait_trace_grows sched
                      (map (blobTask fetcher) (Blobs index)) w0) as [n2 H2];
          unfold materializeBlobs;
          destruct (GoAndWait sched (map (blobTask fetcher) (Blobs index)) w0)
            as [[[e |] g] w3]
        end; cbn in H2 |- *; rewrite H2, <- !app_assoc; cbn; eauto.
  - intros e Hread. destruct (Hfail e (or_introl Hread)) as (? & ? & _). auto.
  - intros Hread. split; [| split].
    + intros e Hinvalid.
      assert (Hdec : json.Unmarshal (unmarshalSociIndex deps) (content rc) = Err e).
      { unfold json.Unmarshal. now rewrite Hinvalid. }
      destruct (Hfail e (or_intror (conj Hread Hdec))) as (? & ? & _). auto.
    + intros e Hdec.
      destruct (Hfail e (or_intror (conj Hread Hdec))) as (? & ? & _). auto.
    + intros index Hok.
      destruct (json.Unmarshal (unmarshalSociIndex deps) (content rc))
        as [ix | e] eqn:Hdec.
      * subst out. unfold FetchSociArtifacts in Hok. rewrite Hfetch in Hok.
        unfold decodeAndCache, io_Copy in Hok. cbn in Hok.
        rewrite Hread in Hok. cbn in Hok. rewrite Hdec in Hok.
        destruct local; cbn in Hok.
        -- unfold materializeBlobs in Hok.
           match type of Hok with context [GoAndWait ?s ?t ?w0] =>
             destruct (GoAndWait s t w0) as [[[e |] g] w3]
           end; cbn in Hok; congruence.
        -- destruct (storage_Push (store w1) (ctx w1) _ _) as [[e |] s'];
             cbn in Hok; [discriminate |].
           unfold materializeBlobs in Hok.
           match type of Hok with context [GoAndWait ?s ?t ?w0] =>
             destruct (GoAndWait s t w0) as [[[e |] g] w3]
           end; cbn in Hok; congruence.
      * destruct (Hfail e (or_intror (conj Hread eq_refl))) as (Hres & _).
        rewrite Hres in Hok. discriminate Hok.
Qed.

End IndexDecoding.

Section Caching.

Import fs.

Context {S : Type} `{Storage S} (present : S -> string -> Prop)
        `{!AppendOnly S present}.

#[local] Arguments Fetch : simpl never.
#[local] Arguments materializeBlobs : simpl never.
#[local] Arguments GoAndWait : simpl never.

(** C3. When the index came from the remote (is-local = false) and was
    read and decoded, the bytes read are pushed to the caller's store right
    after the stream is closed, under the parsed digest and with the number
    of bytes read as size. If that push fails, [FetchSociArtifacts] returns
    its error. So when [FetchSociArtifacts] returns an index, the push
    succeeded, and the index digest is present in the store afterwards. *)
Theorem FetchSociArtifacts_caches_remote_index (deps : Deps) (sched : list nat)
    (c : Context) (imageRef indexDigest : string) (st : S)
    (fetcher : artifactFetcher) (dgst : string) (rc : Stream)
    (w1 : World S) (index : SociIndex) :
  run (fetchIndex deps imageRef indexDigest) (mkWorld st c [])
    = (Ok (fetcher, dgst, rc, false), w1) ->
  readErr rc = None ->
  json.Unmarshal (unmarshalSociIndex deps) (content rc) = Ok index ->
  let desc := indexDescriptor dgst (content rc) in
  let reader := bufferReader (content rc) in
  let res := fst (storage_Push st c desc reader) in
  let out := FetchSociArtifacts deps sched c imageRef indexDigest st in
  Digest desc = dgst
  /\ Size desc = Z.of_nat (length (content rc))
  /\ content reader = content rc
  /\ (exists rest,
        trace (snd out) = trace w1 ++ [EvClose rc; EvLocalPush desc reader res] ++ rest)
  /\ (forall e, res = Some e -> fst out = Err e)
  /\ (forall ix, fst out = Ok ix -> res = None /\ present (store (snd out)) dgst).
Proof.
  intros Hfetch Hread Hdec desc reader res out.
  pose proof (fetchIndex_frame deps imageRef indexDigest (mkWorld st c []))
    as (Hs & Hc & _).
  rewrite Hfetch in Hs, Hc. cbn in Hs, Hc.
  pose proof (FetchSociArtifacts_pushesPresent present deps sched c imageRef
                indexDigest st) as Hpres.
  fold out in Hpres.
  assert (Hshape :
    (exists rest,
        trace (snd out) = trace w1 ++ [EvClose rc; EvLocalPush desc reader res] ++ rest)
    /\ (forall e, res = Some e -> fst out = Err e)
    /\ (forall ix, fst out = Ok ix -> res = None)).
  { subst out res. unfold FetchSociArtifacts. rewrite Hfetch.
    unfold decodeAndCache, io_Copy. cbn. rewrite Hread. cbn. rewrite Hdec. cbn.
    rewrite Hs, Hc. fold desc reader.
    destruct (storage_Push st c desc reader) as [[e |] s'] eqn:Hpush; cbn.
    - repeat split.
      + exists [EvLog Warn [] "unable to store SOCI index into local store"].
        now rewrite <- !app_assoc.
      + intros e' He'. now injection He' as ->.
      + discriminate.
    - match goal with |- context [materializeBlobs _ _ _ ?w0] =>
        destruct (GoAndWait_trace_grows sched
                    (map (blobTask fetcher) (Blobs index)) w0) as [n2 H2];
        unfold materializeBlobs;
        destruct (GoAndWait sched (map (blobTask fetcher) (Blobs index)) w0)
          as [[[e |] g] w3]
      end; cbn in H2 |- *; (repeat split;
        [ exists n2; rewrite H2, <- !app_assoc; reflexivity | discriminate ]). }
  destruct Hshape as (Htrace & Hfailed & Hok).
  repeat split; try assumption; try reflexivity.
  - now apply Hok with ix.
  - pose proof (Hok ix H0) as Hres. destruct Htrace as [rest Htrace].
    apply (Hpres desc reader). rewrite Htrace, Hres.
    apply elem_of_app. right. right. left.
Qed.

End Caching.

Section BlobGroup.

Import fs.

Context {S : Type} `{Storage S} (present : S -> string -> Prop)
        `{!AppendOnly S present}.








Lemma foldl_step_length (l : list nat) (st : Group * World S) (n : nat) :
  GroupInv n (fst st) -> length (goroutines (fst (foldl stepGoroutine st l))) = n.
Proof.
  intros Hinv.
  now destruct (foldl_inv n stepGoroutine l st (stepGoroutine_inv n) Hinv).
Qed.

End BlobGroup.

(* ------------------------------------------------------------------ *)
(** ** Further properties of the sources *)

Section Further.

Import fs.

Context {S : Type} `{Storage S}.

(** A descriptor that carries its size is fetched from the remote store
    right away on a local miss: the resolver is not called, and a failure
    of the remote store is returned wrapped with the descriptor's digest. *)
Theorem Fetch_known_size_skips_resolver (f : artifactFetcher) (desc : Descriptor)
    (w : World S) (e : error) :
  Size desc <> 0 ->
  storage_Fetch (store w) (ctx w) desc = Err e ->
  let out := run (Fetch f desc) w in
  trace (snd out) = trace w ++ [EvLocalFetch desc; logRemote desc; EvRemoteFetch desc]
  /\ match remoteStore f (trace w ++ [EvLocalFetch desc; logRemote desc]) (ctx w) desc with
     | Ok rc => fst out = Ok (rc, false)
     | Err ef => fst out = Err (remoteFetchError desc ef)
     end.
Proof.
  intros Hsize Hloc out. subst out. unfold Fetch. cbn. rewrite Hloc. cbn.
  apply Z.eqb_neq in Hsize. rewrite Hsize. cbn.
  rewrite <- !app_assoc. cbn. fold (logRemote desc).
  destruct (remoteStore f _ (ctx w) desc); cbn; rewrite <- !app_assoc; auto.
Qed.

End Further.

(** The credential callback of the remote store: a secret without a user
    name is a refresh token; otherwise user name and secret are a user name
    and a password; a failed lookup is passed on. *)
Theorem remoteCredential_shapes (DockerCreds : string -> Result (string * string))
    (host : string) :
  (forall secret, DockerCreds host = Ok (""%string, secret) -> secret <> ""%string ->
     fs.remoteCredential DockerCreds host
     = Ok {| fs.Username := ""; fs.Password := ""; fs.RefreshToken := secret |})
  /\ (forall username secret, DockerCreds host = Ok (username, secret) ->
        username <> ""%string \/ secret = ""%string ->
        fs.remoteCredential DockerCreds host
        = Ok {| fs.Username := username; fs.Password := secret; fs.RefreshToken := "" |})
  /\ (forall e, DockerCreds host = Err e -> fs.remoteCredential DockerCreds host = Err e).
Proof.
  unfold fs.remoteCredential. repeat split.
  - intros secret -> Hsecret. cbn.
    destruct (String.eqb_spec secret ""); [contradiction | reflexivity].
  - intros username secret -> Hshape.
    destruct (String.eqb_spec username ""), (String.eqb_spec secret ""); cbn;
      try reflexivity.
    destruct Hshape; contradiction.
  - now intros e ->.
Qed.

(** [Jitter] keeps the promise of its comment wherever its draw is defined
    and the sum fits: for a positive divisor, a duration of at least the
    divisor and duration + duration/divisor within a 64-bit duration, the
    result lies in [[duration, duration + duration/divisor - 1]]. *)
Theorem Jitter_in_range (duration divisor src : Z) :
  0 < divisor -> divisor <= duration ->
  duration + duration ÷ divisor <= MaxInt64 ->
  exists r, http.Jitter duration divisor src = Some r
            /\ duration <= r <= duration + duration ÷ divisor - 1.
Proof.
  intros Hdiv Hle Hfit.
  destruct (Jitter_range duration divisor src Hdiv Hle Hfit) as (r & Hr & Hrange).
  exists r. split; [exact Hr | lia].
Qed.

(* ------------------------------------------------------------------ *)
(** ** The properties at work on the example registry *)

#[export] Instance MemStore_AppendOnly : AppendOnly (gmap string Bytes) memPresent.
Proof.
  split.
  - intros s c d r res s' g Hpush Hpres. cbn in Hpush.
    destruct (readErr r); injection Hpush as <- <-; [exact Hpres |].
    unfold memPresent. destruct (decide (Digest d = g)) as [<- | Hne].
    + rewrite lookup_insert_eq. eauto.
    + now rewrite lookup_insert_ne.
  - intros s c d r s' Hpush. cbn in Hpush.
    destruct (readErr r); [discriminate |]. injection Hpush as <-.
    unfold memPresent. rewrite lookup_insert_eq. eauto.
Qed.


(** C2 at work: the index is in the local store. *)
Lemma Fetch_local_hit_witness :
  fst (fs.run (fs.Fetch sample.fetcher sample.indexByDigest)
         (fs.mkWorld (<[sample.indexDigest := sample.indexJSON]> sample.emptyStore)
            sample.background []))
  = Ok ({| content := sample.indexJSON; readErr := None |}, true).
Proof.
  refine (proj1 (Fetch_local_hit sample.fetcher sample.indexByDigest
                   (fs.mkWorld (<[sample.indexDigest := sample.indexJSON]> sample.emptyStore)
                      sample.background [])
                   {| content := sample.indexJSON; readErr := None |} _)).
  vm_compute. reflexivity.
Defined.

(** C1 at work: empty local store, a resolver that fails. *)
Lemma Fetch_zero_size_witness :
  fst (fs.run (fs.Fetch sample.unresolving sample.indexByDigest)
         (fs.mkWorld sample.emptyStore sample.background []))
  = Err (resolutionError "example.com/repo@sha256:aaaa" (errorString "manifest unknown")).
Proof.
  pose proof (Fetch_zero_size_resolves_first sample.unresolving sample.indexByDigest
                (fs.mkWorld sample.emptyStore sample.background [])
                (errorString "not found") eq_refl eq_refl) as Hw.
  exact (proj1 Hw).
Defined.

(** C8 at work: a broken store and an empty store give the same result. *)
Lemma Fetch_local_error_witness :
  fst (fs.run (fs.Fetch sample.fetcher sample.blob1)
         (fs.mkWorld tt sample.background []))
  = fst (fs.run (fs.Fetch sample.fetcher sample.blob1)
           (fs.mkWorld sample.emptyStore sample.background [])).
Proof.
  exact (proj1 (Fetch_local_error_discarded sample.fetcher sample.blob1
                  (fs.mkWorld tt sample.background [])
                  (fs.mkWorld sample.emptyStore sample.background [])
                  (errorString "input/output error") (errorString "not found")
                  eq_refl eq_refl eq_refl eq_refl)).
Defined.


(** C9 at work: the registry serves a ztoc buffer as the index; decoding
    fails and the store stays empty. *)
Lemma decode_error_witness :
  let out := fs.FetchSociArtifacts (sample.depsBinary (fun _ => Ok sample.index)) []
               sample.background sample.imageRef sample.indexDigest sample.emptyStore in
  fst out = Err (SyntaxError (Some x10) "looking for beginning of value" 1)
  /\ pushEvents (fs.trace (snd out)) = []
  /\ fs.store (snd out) = sample.emptyStore.
Proof.
  edestruct (FetchSociArtifacts_decode_error_leaves_store
               (sample.depsBinary (fun _ => Ok sample.index)) []
               sample.background sample.imageRef sample.indexDigest sample.emptyStore)
    as (Hres & _ & Hpush & Hstore);
    [reflexivity | reflexivity | reflexivity |].
  exact (conj Hres (conj Hpush Hstore)).
Defined.

(** C7 at work: the same run, read off the amended statement. *)
Lemma decodes_json_witness :
  fst (fs.FetchSociArtifacts (sample.depsBinary (fun _ => Ok sample.index)) [0%nat; 1%nat]
         sample.background sample.imageRef sample.indexDigest sample.emptyStore)
  = Err (SyntaxError (Some x10) "looking for beginning of value" 1).
Proof.
  edestruct (FetchSociArtifacts_decodes_json
               (sample.depsBinary (fun _ => Ok sample.index)) [0%nat; 1%nat]
               sample.background sample.imageRef sample.indexDigest sample.emptyStore)
    as (_ & _ & Hdecode); [reflexivity |].
  destruct (Hdecode eq_refl) as (Hinvalid & _ & _).
  exact (proj1 (Hinvalid _ eq_refl)).
Defined.

(** C7 as stated fails. A buffer that is a well-formed ztoc table encoding
    (its root table decodes) is refused by [FetchSociArtifacts] with a JSON
    syntax error at its first byte, whatever the decoder of valid JSON and
    the schedule are; and the JSON text of an empty object, which passes
    the syntax check that admits input to the decoder, is no table encoding
    at all. *)
Lemma decodes_json_counterexample :
  ztoc.GetRootAsZtoc sample.ztocBytes
    = Some {| ztoc.version := sample.str "0.9"; ztoc.build_tool_identifier := [];
              ztoc.compressed_archive_size := 1000;
              ztoc.uncompressed_archive_size := 4096;
              ztoc.toc := None; ztoc.compression_info := None |}
  /\ (forall unmarshal sched,
        fst (fs.FetchSociArtifacts (sample.depsBinary unmarshal) sched
               sample.background sample.imageRef sample.indexDigest sample.emptyStore)
        = Err (SyntaxError (Some x10) "looking for beginning of value" 1))
  /\ json.checkValid (sample.str "{}") = None
  /\ ztoc.GetRootAsZtoc (sample.str "{}") = None.
Proof.
  split; [reflexivity |]. split; [| split; reflexivity].
  intros unmarshal sched.
  edestruct (FetchSociArtifacts_fails_after_close
               (sample.depsBinary unmarshal) sched
               sample.background sample.imageRef sample.indexDigest sample.emptyStore)
    as (Hres & _); [reflexivity | right; split; reflexivity |].
  exact Hres.
Qed.

(** C3 at work: the index comes from the registry and every blob is there;
    the index is returned and is in the store afterwards. *)
Lemma caches_remote_index_witness :
  let out := fs.FetchSociArtifacts sample.depsAllThere [1%nat; 0%nat; 0%nat]
               sample.background sample.imageRef sample.indexDigest sample.emptyStore in
  fst out = Ok {| fs.Blobs := [sample.blob1; sample.blob2] |}
  /\ memPresent (fs.store (snd out)) sample.indexDigest.
Proof.
  edestruct (FetchSociArtifacts_caches_remote_index memPresent
               sample.depsAllThere [1%nat; 0%nat; 0%nat]
               sample.background sample.imageRef sample.indexDigest sample.emptyStore)
    as (_ & _ & _ & _ & _ & Hok); [reflexivity | reflexivity | reflexivity |].
  assert (Hres : fst (fs.FetchSociArtifacts sample.depsAllThere [1%nat; 0%nat; 0%nat]
                        sample.background sample.imageRef sample.indexDigest
                        sample.emptyStore)
                 = Ok {| fs.Blobs := [sample.blob1; sample.blob2] |})
    by (vm_compute; reflexivity).
  exact (conj Hres (proj2 (Hok _ Hres))).
Defined.

(** C5 at work: the defaults, third retry, no response. *)
Lemma BackoffStrategy_bounds_witness :
  http.DefaultBackoff 30000000 300000000000 3 None <= 300000000000
  /\ exists delay,
       http.BackoffStrategy 30000000 300000000000 3 None 12345 = Some delay
       /\ 240000000 <= delay /\ 8 * delay < 9 * 240000000.
Proof.
  pose proof (BackoffStrategy_bounds 30000000 300000000000 3 None 12345) as Hb.
  cbv zeta in Hb. destruct Hb as (Hmax & Hjit & Hcfg).
  destruct (Hcfg eq_refl ltac:(lia) ltac:(lia) ltac:(lia)
              ltac:(vm_compute; discriminate)) as [H8 Hfit].
  destruct (Hjit H8 Hfit) as (delay & Hd & Hlo & _ & Hmul).
  split; [exact (Hmax eq_refl) |].
  exists delay. exact (conj Hd (conj Hlo Hmul)).
Defined.

(** C5 as stated fails, in three ways: a retry-after hint of 600 s is a
    base delay beyond the 300 s maximum; with a base delay of 0 no delay is
    computed at all, whatever the random source yields; and with the
    largest duration as both waits the sum wraps around to a delay below
    the base delay. *)
Lemma BackoffStrategy_bounds_counterexample :
  300 * http.Second
    < http.DefaultBackoff (30 * http.Millisecond) (300 * http.Second) 0
        (Some {| http.StatusCode := 429; http.RetryAfter := Some 600 |})
  /\ (forall src, http.BackoffStrategy 0 (300 * http.Second) 0 None src = None)
  /\ http.BackoffStrategy MaxInt64 MaxInt64 0 None 1 = Some MinInt64.
Proof.
  split; [reflexivity |]. split; [intros src; reflexivity | reflexivity].
Qed.

(** C6 at work: 503 is retried, 501 is not. *)
Lemma RetryStrategy_classification_witness :
  fst (fst (http.RetryStrategy
              (Some {| http.StatusCode := 503; http.RetryAfter := None |}) None)) = true
  /\ fst (fst (http.RetryStrategy
                 (Some {| http.StatusCode := 501; http.RetryAfter := None |}) None)) = false.
Proof.
  pose proof (RetryStrategy_classification
                {| http.StatusCode := 503; http.RetryAfter := None |}) as H503.
  pose proof (RetryStrategy_classification
                {| http.StatusCode := 501; http.RetryAfter := None |}) as H501.
  cbv zeta in H503, H501. cbn [http.StatusCode] in H503, H501.
  split.
  - apply (proj1 H503). right. lia.
  - apply (proj2 H501). left. reflexivity.
Defined.

(** C10: where the code goes wrong. With the default waits (30 ms and
    300 s), a 429 response whose retry-after hint is 0 seconds makes the
    base delay 0, and [BackoffStrategy] panics in its random draw; so it
    does with a minimum wait of 30 ms and a maximum wait below 8 ns. *)
Lemma BackoffStrategy_panics_below_divisor (attemptNum src : Z) :
  http.BackoffStrategy
    (http.MinWait (http.retryConfig http.NewRetryableClientConfig))
    (http.MaxWait (http.retryConfig http.NewRetryableClientConfig))
    attemptNum
    (Some {| http.StatusCode := 429; http.RetryAfter := Some 0 |}) src = None
  /\ http.BackoffStrategy
       (http.MinWait (http.retryConfig http.NewRetryableClientConfig)) 7
       0 None src = None.
Proof. split; reflexivity. Qed.

(** A blob with a known size that is not in the local store. *)
Lemma Fetch_known_size_witness :
  fst (fs.run (fs.Fetch sample.fetcher sample.blob1)
         (fs.mkWorld sample.emptyStore sample.background []))
  = Ok ({| content := sample.str "abc"; readErr := None |}, false).
Proof.
  exact (proj2 (Fetch_known_size_skips_resolver sample.fetcher sample.blob1
                  (fs.mkWorld sample.emptyStore sample.background [])
                  (errorString "not found") ltac:(discriminate) eq_refl)).
Defined.

(** A token-only credential. *)
Lemma remoteCredential_witness :
  fs.remoteCredential (fun _ => Ok (""%string, "t0ken"%string)) "example.com"
  = Ok {| fs.Username := ""; fs.Password := ""; fs.RefreshToken := "t0ken" |}.
Proof.
  exact (proj1 (remoteCredential_shapes (fun _ => Ok (""%string, "t0ken"%string))
                  "example.com") "t0ken"%string eq_refl ltac:(discriminate)).
Defined.

(** A jitter of an eighth on 240 ms. *)
Lemma Jitter_in_range_witness :
  exists r, http.Jitter 240000000 8 12345 = Some r
            /\ 240000000 <= r <= 240000000 + 240000000 ÷ 8 - 1.
Proof.
  exact (Jitter_in_range 240000000 8 12345 ltac:(lia) ltac:(lia)
           ltac:(vm_compute; discriminate)).
Defined.

(* ------------------------------------------------------------------ *)
(** ** Paths of [FetchSociArtifacts] and of a blob's goroutine *)

Section Paths.

Import fs.

Context {S : Type} `{Storage S}.

#[local] Arguments Fetch : simpl never.
#[local] Arguments materializeBlobs : simpl never.
#[local] Arguments GoAndWait : simpl never.

(** A reference that does not parse, a repository that cannot be created
    and a digest that does not parse each end [FetchSociArtifacts] before
    any call to the store, the resolver or the registry: the history holds
    at most the two log lines and the store is the one passed in. The first
    two errors are wrapped; the digest error is returned as it is. *)
Theorem FetchSociArtifacts_bad_input_touches_nothing (deps : Deps)
    (sched : list nat) (c : Context) (imageRef indexDigest : string) (st : S) :
  let out := FetchSociArtifacts deps sched c imageRef indexDigest st in
  (forall e, reference_Parse deps imageRef = Err e ->
     fst out = Err (fmt_Errorf "cannot parse image ref (%s): %w" [imageRef] e)
     /\ trace (snd out) = [] /\ store (snd out) = st)
  /\ (forall refspec e,
        reference_Parse deps imageRef = Ok refspec ->
        remote_NewRepository deps (Locator refspec) = Err e ->
        fst out = Err (fmt_Errorf "cannot create remote store: %w" []
                         (fmt_Errorf "cannot create repository %s: %w"
                            [Locator refspec] e))
        /\ trace (snd out) = [] /\ store (snd out) = st)
  /\ (forall refspec remote e,
        reference_Parse deps imageRef = Ok refspec ->
        remote_NewRepository deps (Locator refspec) = Ok remote ->
        digest_Parse deps indexDigest = Err e ->
        fst out = Err e
        /\ trace (snd out) =
             [EvLog Info [("digest", indexDigest)]
                "fetching SOCI index from remote registry";
              EvLog Warn [("digest", indexDigest)]
                "could not parse soci index digest"]
        /\ store (snd out) = st).
Proof.
  intros out. subst out. unfold FetchSociArtifacts, fetchIndex, newRemoteStore.
  split; [| split].
  - intros e ->. cbn. auto.
  - intros refspec e -> ->. cbn. auto.
  - intros refspec remote e -> -> Hd. cbn. rewrite Hd. cbn. auto.
Qed.

(** The index is asked for by digest alone, with size 0. So when the local
    store does not deliver it, the resolver is always called, on
    locator@digest, before anything is fetched from the registry. *)
Theorem fetchIndex_resolves_by_digest (deps : Deps) (imageRef indexDigest : string)
    (w : World S) (refspec : Spec) (remote : RemoteStorage) (dgst : string)
    (e : error) :
  reference_Parse deps imageRef = Ok refspec ->
  remote_NewRepository deps (Locator refspec) = Ok remote ->
  digest_Parse deps indexDigest = Ok dgst ->
  let desc := {| MediaType := ""; Digest := dgst; Size := 0 |} in
  storage_Fetch (store w) (ctx w) desc = Err e ->
  exists rest,
    trace (snd (run (fetchIndex deps imageRef indexDigest) w)) =
      trace w ++
      [EvLog Info [("digest", indexDigest)] "fetching SOCI index from remote registry";
       EvLocalFetch desc; logRemote desc; logZeroSize desc;
       EvResolve (Locator refspec +:+ "@" +:+ dgst)] ++ rest
    /\ (rest = [] \/ exists resolved, rest = [EvRemoteFetch resolved]).
Proof.
  intros Href Hrepo Hd desc Hloc.
  unfold fetchIndex, newRemoteStore. rewrite Href, Hrepo. cbn. rewrite Hd.
  rewrite run_bind. unfold Fetch. cbn. fold desc. rewrite Hloc. cbn.
  match goal with |- context [newResolver deps ?tr ?c ?r] =>
    destruct (newResolver deps tr c r) as [resolved | er]
  end; cbn.
  - match goal with |- context [remote ?tr ?c resolved] =>
      destruct (remote tr c resolved)
    end; cbn; (exists [EvRemoteFetch resolved]; split; [| right; eauto]);
      rewrite <- !app_assoc; reflexivity.
  - exists []. split; [| now left]. rewrite <- !app_assoc. reflexivity.
Qed.

(** With the index in the local store, [FetchSociArtifacts] calls neither
    the resolver nor the registry for it and does not push it: after the
    one local fetch and the close of the stream it goes on to the blobs,
    with the store untouched. *)
Theorem FetchSociArtifacts_local_index_not_pushed (deps : Deps)
    (sched : list nat) (c : Context) (imageRef indexDigest : string) (st : S)
    (refspec : Spec) (remote : RemoteStorage) (dgst : string) (rc : Stream)
    (index : SociIndex) :
  reference_Parse deps imageRef = Ok refspec ->
  remote_NewRepository deps (Locator refspec) = Ok remote ->
  digest_Parse deps indexDigest = Ok dgst ->
  let desc := {| MediaType := ""; Digest := dgst; Size := 0 |} in
  storage_Fetch st c desc = Ok rc ->
  readErr rc = None ->
  json.Unmarshal (unmarshalSociIndex deps) (content rc) = Ok index ->
  let fetcher := {| resolver := newResolver deps; remoteStore := remote;
                    refspec := refspec |} in
  let blobs := materializeBlobs sched fetcher (Blobs index)
                 (mkWorld st c
                    [EvLog Info [("digest", indexDigest)]
                       "fetching SOCI index from remote registry";
                     EvLocalFetch desc; EvClose rc]) in
  let out := FetchSociArtifacts deps sched c imageRef indexDigest st in
  snd out = snd blobs
  /\ fst out = match fst (fst blobs) with Some e => Err e | None => Ok index end.
Proof.
  intros Href Hrepo Hd desc Hloc Hread Hdec fetcher blobs out.
  subst out blobs. unfold FetchSociArtifacts, fetchIndex, newRemoteStore.
  rewrite Href, Hrepo. cbn. rewrite Hd. rewrite run_bind.
  unfold Fetch. cbn. fold desc. rewrite Hloc. cbn.
  unfold decodeAndCache, io_Copy. rewrite Hread. cbn. rewrite Hdec. cbn.
  unfold record. cbn. fold fetcher.
  destruct (materializeBlobs sched fetcher (Blobs index) _) as [[[e |] g] w3];
    cbn; auto.
Qed.

(** When caching the index fails, nothing more happens: the push error is
    returned as it is, one warning is logged, and no blob is fetched. *)
Theorem FetchSociArtifacts_index_push_failure_stops (deps : Deps)
    (sched : list nat) (c : Context) (imageRef indexDigest : string) (st : S)
    (fetcher : artifactFetcher) (dgst : string) (rc : Stream)
    (w1 : World S) (index : SociIndex) (e : error) :
  run (fetchIndex deps imageRef indexDigest) (mkWorld st c [])
    = (Ok (fetcher, dgst, rc, false), w1) ->
  readErr rc = None ->
  json.Unmarshal (unmarshalSociIndex deps) (content rc) = Ok index ->
  let desc := indexDescriptor dgst (content rc) in
  let reader := bufferReader (content rc) in
  fst (storage_Push st c desc reader) = Some e ->
  let out := FetchSociArtifacts deps sched c imageRef indexDigest st in
  fst out = Err e
  /\ trace (snd out) =
       trace w1 ++ [EvClose rc; EvLocalPush desc reader (Some e);
                    EvLog Warn [] "unable to store SOCI index into local store"]
  /\ store (snd out) = snd (storage_Push st c desc reader).
Proof.
  intros Hfetch Hread Hdec desc reader Hpush out.
  pose proof (fetchIndex_frame deps imageRef indexDigest (mkWorld st c []))
    as (Hs & Hc & _).
  rewrite Hfetch in Hs, Hc. cbn in Hs, Hc.
  subst out. unfold FetchSociArtifacts. rewrite Hfetch.
  unfold decodeAndCache, io_Copy. cbn. rewrite Hread. cbn. rewrite Hdec. cbn.
  rewrite Hs, Hc. fold desc reader.
  destruct (storage_Push st c desc reader) as [res s'] eqn:Hp.
  cbn in Hpush. subst res. cbn. rewrite <- !app_assoc. auto.
Qed.

(** One blob's goroutine, run on its own. A failed fetch is returned
    wrapped and nothing is closed. A stream from the local store is closed
    and nothing is pushed. A stream from the registry is pushed under the
    blob's descriptor as the index lists it (also when [Fetch] resolved
    another one), and it is closed after the push, failed or not; a failed
    push is returned wrapped. *)
Theorem blobTask_closes_what_it_opens (fetcher : artifactFetcher)
    (blob : Descriptor) (w : World S) :
  let fetched := run (Fetch fetcher blob) w in
  let w1 := snd fetched in
  let out := run (blobTask fetcher blob) w in
  match fst fetched with
  | Err e =>
      fst out = Some (fmt_Errorf "cannot fetch artifact: %w" [] e)
      /\ snd out = w1
  | Ok (rc, true) =>
      fst out = None
      /\ trace (snd out) = trace w1 ++ [EvClose rc]
      /\ store (snd out) = store w1
  | Ok (rc, false) =>
      let pushed := storage_Push (store w1) (ctx w1) blob rc in
      fst out = match fst pushed with
                | Some e => Some (fmt_Errorf "unable to push to local store: %w" [] e)
                | None => None
                end
      /\ trace (snd out) = trace w1 ++ [EvLocalPush blob rc (fst pushed); EvClose rc]
      /\ store (snd out) = snd pushed
  end.
Proof.
  intros fetched w1 out. subst out w1 fetched. unfold blobTask.
  rewrite run_bind.
  destruct (run (Fetch fetcher blob) w) as [[[rc [|]] | e] w1]; cbn; auto.
  destruct (storage_Push (store w1) (ctx w1) blob rc) as [[e |] s']; cbn;
    rewrite <- !app_assoc; auto.
Qed.

End Paths.

(* ------------------------------------------------------------------ *)
(** ** The waits between attempts *)

Section Waits.

Import http.

(** The delay against the configured maximum. Without a retry-after hint,
    for attempts from 0 on and waits of at least 8 ns (with max + max/8
    fitting a duration), the delay is at most max + max/8 - 1. Once the
    exponential delay has passed [max], the delay is [max] plus the draw
    modulo max/8: above the configured maximum wait whenever the draw is
    not a multiple of max/8. *)
Theorem BackoffStrategy_against_max (min max attemptNum : Z)
    (resp : option Response) (src : Z) :
  retryAfterHint resp = None -> 0 <= attemptNum ->
  8 <= min -> 8 <= max -> max + max ÷ 8 <= MaxInt64 ->
  (exists delay, BackoffStrategy min max attemptNum resp src = Some delay
                 /\ delay <= max + max ÷ 8 - 1)
  /\ (max < 2 ^ attemptNum * min ->
      BackoffStrategy min max attemptNum resp src = Some (max + src mod (max ÷ 8))).
Proof.
  intros Hhint Hk Hmin Hmax Hfit.
  pose proof (DefaultBackoff_le_max min max attemptNum resp Hhint) as Hle.
  pose proof (DefaultBackoff_ge 8 min max attemptNum resp Hhint Hk
                ltac:(lia) Hmin Hmax) as Hge.
  split.
  - unfold BackoffStrategy. cbv zeta.
    set (base := DefaultBackoff min max attemptNum resp) in *.
    assert (Hq : base ÷ 8 <= max ÷ 8) by (apply Z.quot_le_mono; lia).
    destruct (Jitter_range base 8 src) as (r & Hr & Hrange); try lia.
    exists r. split; [exact Hr | lia].
  - intros Hsat. unfold BackoffStrategy, DefaultBackoff. rewrite Hhint. cbv zeta.
    replace (inInt64 (2 ^ attemptNum * min) && (2 ^ attemptNum * min <=? max))
      with false
      by (symmetry; apply andb_false_iff; right; apply Z.leb_gt; exact Hsat).
    assert (Hq : 1 <= max ÷ 8) by (apply Z.quot_le_lower_bound; lia).
    unfold Jitter, Int63n.
    rewrite quot64_small by (unfold MaxInt64 in *; lia).
    destruct (Z.eqb_spec 8 0); [lia |].
    destruct (Z.leb_spec (max ÷ 8) 0); [lia |].
    pose proof (Z.mod_pos_bound src (max ÷ 8) ltac:(lia)) as Hm.
    rewrite wrap64_id by (unfold MinInt64, MaxInt64 in *; lia).
    f_equal. lia.
Qed.

(** One default wait: for a base delay between 8 ns and 2^40 ns a delay is
    computed, at least the base and below 1.125 times the base. *)
Lemma default_wait (min max attemptNum base src : Z) :
  DefaultBackoff min max attemptNum None = base ->
  8 <= base <= 2 ^ 40 ->
  exists d, BackoffStrategy min max attemptNum None src = Some d
            /\ base <= d /\ 8 * d < 9 * base.
Proof.
  intros Hbase Hrange. unfold BackoffStrategy. cbv zeta. rewrite Hbase.
  assert (Hq : base ÷ 8 <= base) by (apply Z.quot_le_upper_bound; lia).
  destruct (Jitter_range base 8 src) as (r & Hr & Hr');
    try (unfold MaxInt64; lia).
  exists r. split; [exact Hr |].
  pose proof (Z.quot_rem' base 8) as Hqr.
  pose proof (Z.rem_bound_pos base 8 ltac:(lia) ltac:(lia)) as Hrem.
  lia.
Qed.

(** The comment on the defaults: eight retries starting from 30 ms are to
    take at least 5 s in total. They do: with the default waits and no
    response, the delays of the attempts 0 to 7 are all computed, and they
    add up to at least 7.65 s and to less than 1.125 times that, whatever
    the random source yields. *)
Theorem default_waits_total (srcs : list Z) :
  length srcs = Z.to_nat DefaultMaxRetries ->
  exists ds,
    retryWaits (MinWait (retryConfig NewRetryableClientConfig))
               (MaxWait (retryConfig NewRetryableClientConfig)) 0 srcs = Some ds
    /\ 5000 * Millisecond < 7650 * Millisecond <= total ds
    /\ 8 * total ds < 9 * (7650 * Millisecond).
Proof.
  intros Hlen.
  do 8 (destruct srcs as [| ? srcs]; [discriminate Hlen |]).
  destruct srcs; [| discriminate Hlen]. clear Hlen.
  change (MinWait (retryConfig NewRetryableClientConfig)) with 30000000.
  change (MaxWait (retryConfig NewRetryableClientConfig)) with 300000000000.
  cbn [retryWaits].
  repeat match goal with
  | |- context [BackoffStrategy 30000000 300000000000 ?k None ?src] =>
      let base := eval vm_compute in (DefaultBackoff 30000000 300000000000 k None) in
      let Hd := fresh "Hd" in
      destruct (default_wait 30000000 300000000000 k base src eq_refl
                  ltac:(split; vm_compute; discriminate))
        as (? & Hd & ? & ?);
      rewrite Hd; clear Hd; cbn [mbind option_bind]
  end.
  eexists. split; [reflexivity |].
  unfold total, Millisecond. cbn [foldr]. lia.
Qed.

End Waits.

(** The defaults, eight draws. *)
Lemma default_waits_witness :
  exists ds,
    retryWaits 30000000 300000000000 0 [1; 2; 3; 4; 5; 6; 7; 8] = Some ds
    /\ 7650 * http.Millisecond <= total ds.
Proof.
  destruct (default_waits_total [1; 2; 3; 4; 5; 6; 7; 8] eq_refl)
    as (ds & Hds & [_ Hlo] & _).
  exists ds. exact (conj Hds Hlo).
Defined.

(** 100 ms to 1 s, tenth attempt: the backoff is saturated. *)
Lemma BackoffStrategy_against_max_witness :
  http.BackoffStrategy 100000000 1000000000 10 None 12345 = Some 1000012345.
Proof.
  exact (proj2 (BackoffStrategy_against_max 100000000 1000000000 10 None 12345
                  eq_refl ltac:(lia) ltac:(lia) ltac:(lia)
                  ltac:(vm_compute; discriminate))
           ltac:(vm_compute; reflexivity)).
Defined.

(* ------------------------------------------------------------------ *)
(** ** What a successful [FetchSociArtifacts] leaves in the store *)

Section Success.

Import fs.

Context {S : Type} `{Storage S} (present : S -> string -> Prop)
        `{!AppendOnly S present} `{!FetchSound S present}.

#[local] Arguments Fetch : simpl never.
#[local] Arguments materializeBlobs : simpl never.

Lemma handle_present_mono {X : Type} (op : Op X) (w : World S) (g : string) :
  present (store w) g -> present (store (snd (handle op w))) g.
Proof.
  intros Hp.
  destruct op as [desc | desc reader | rsv ref | rs desc | rc | lvl fields msg];
    cbn; try exact Hp.
  destruct (storage_Push (store w) (ctx w) desc reader) as [res s'] eqn:Hpush.
  cbn. eapply push_keeps; eauto.
Qed.

Lemma handle_establishes {X : Type} (op : Op X) (w : World S) (g : string) :
  establishes g op (fst (handle op w)) = true ->
  present (store (snd (handle op w))) g.
Proof.
  destruct op as [desc | desc reader | rsv ref | rs desc | rc | lvl fields msg];
    cbn; try discriminate.
  - destruct (storage_Fetch (store w) (ctx w) desc) as [rc | e] eqn:Hf;
      [| discriminate].
    intros Heq. apply String.eqb_eq in Heq. subst g. eapply fetch_present; eauto.
  - destruct (storage_Push (store w) (ctx w) desc reader) as [[e |] s'] eqn:Hpush;
      cbn; [discriminate |].
    intros Heq. apply String.eqb_eq in Heq. subst g. eapply push_adds; eauto.
Qed.

Lemma run_present_mono {A : Type} (p : Prog A) (w : World S) (g : string) :
  present (store w) g -> present (store (snd (run p w))) g.
Proof.
  revert w. induction p as [a | X op k IH]; intros w Hp; cbn; [exact Hp |].
  pose proof (handle_present_mono op w g Hp) as Hh.
  destruct (handle op w) as [x w']. now apply IH.
Qed.

Lemma run_ensures (g : string) (p : Prog (option error)) (known : bool)
    (w : World S) :
  Ensures g known p ->
  (known = true -> present (store w) g) ->
  fst (run p w) = None -> present (store (snd (run p w))) g.
Proof.
  revert known w. induction p as [r | X op k IH]; intros known w Hens Hk; cbn.
  - intros Hr. apply Hk, Hens, Hr.
  - cbn in Hens.
    pose proof (handle_establishes op w g) as Hest.
    pose proof (handle_present_mono op w g) as Hmono.
    destruct (handle op w) as [x w']. cbn in Hest, Hmono.
    apply (IH x (known || establishes g op x)); [apply Hens |].
    intros Hor. apply orb_true_iff in Hor as [-> | Hor]; auto.
Qed.

(** A blob's goroutine returns success only after a local fetch delivered
    the blob or a push of it succeeded. *)
Lemma blobTask_ensures (fetcher : artifactFetcher) (blob : Descriptor) :
  Ensures (Digest blob) false (blobTask fetcher blob).
Proof.
  unfold blobTask, Fetch, Store, resolve. cbn.
  intros [rc | e]; cbn.
  { rewrite String.eqb_refl. intros _ _. reflexivity. }
  intros _. destruct (Size blob =? 0); cbn.
  - intros _ [resolved | er]; cbn; [| discriminate].
    intros [rc | ef]; cbn; [| discriminate].
    intros [err |]; cbn; [intros _; discriminate |].
    rewrite String.eqb_refl. intros _ _. reflexivity.
  - intros [rc | ef]; cbn; [| discriminate].
    intros [err |]; cbn; [intros _; discriminate |].
    rewrite String.eqb_refl. intros _ _. reflexivity.
Qed.

Lemma goroutineReturns_store (i : nat) (r : option error) (g : Group) (w : World S) :
  store (snd (goroutineReturns i r g w)) = store w.
Proof. unfold goroutineReturns. now destruct r, (err g). Qed.

Lemma goroutineReturns_group (i : nat) (r : option error) (g : Group) (w : World S) :
  goroutines (fst (goroutineReturns i r g w)) = <[i := None]> (goroutines g)
  /\ returned (fst (goroutineReturns i r g w)) = returned g ++ [(i, r)].
Proof. unfold goroutineReturns. now destruct r, (err g). Qed.

Lemma returns_BlobsStored (blobs : list Descriptor) (g : Group) (w w' : World S)
    (j : nat) (r : option error) :
  (forall d, present (store w) d -> present (store w') d) ->
  (forall blob, blobs !! j = Some blob -> r = None ->
                present (store w') (Digest blob)) ->
  is_Some (goroutines g !! j) ->
  BlobsStored present blobs (g, w) ->
  BlobsStored present blobs (goroutineReturns j r g w').
Proof.
  intros Hmono Hdone Hj [Hrun Hret].
  destruct (goroutineReturns_group j r g w') as [Hg Hr].
  pose proof (goroutineReturns_store j r g w') as Hs.
  split.
  - intros i blob p Hblob Hl. rewrite Hg in Hl. rewrite Hs.
    destruct (decide (i = j)) as [-> | Hne].
    + rewrite list_lookup_insert_eq in Hl
        by (destruct Hj as [? Hj]; eapply lookup_lt_Some; eauto).
      discriminate Hl.
    + rewrite list_lookup_insert_ne in Hl by congruence.
      destruct (Hrun i blob p Hblob Hl) as (known & Hens & Hk).
      exists known. split; [exact Hens |]. intros Hkn. apply Hmono, Hk, Hkn.
  - intros i blob Hblob Hin. rewrite Hr in Hin. rewrite Hs.
    apply elem_of_app in Hin as [Hin | Hin].
    + apply Hmono. eapply Hret; eauto.
    + apply list_elem_of_singleton in Hin. injection Hin as -> <-.
      now apply Hdone.
Qed.

Lemma stepGoroutine_BlobsStored (blobs : list Descriptor)
    (st : Group * World S) (j : nat) :
  BlobsStored present blobs st -> BlobsStored present blobs (stepGoroutine st j).
Proof.
  destruct st as [g w]. intros Hinv. unfold stepGoroutine.
  destruct (goroutines g !! j) as [[[r | X op k] |] |] eqn:Hl; try exact Hinv.
  - apply (returns_BlobsStored blobs g w w);
      [auto | | rewrite Hl; eauto | exact Hinv].
    intros blob Hblob ->. destruct Hinv as [Hrun _].
    destruct (Hrun j blob (Ret None) Hblob Hl) as (known & Hens & Hk).
    apply Hk, Hens. reflexivity.
  - destruct Hinv as [Hrun Hret].
    pose proof (handle_establishes op w) as Hest.
    pose proof (handle_present_mono op w) as Hmono.
    destruct (handle op w) as [x w']. cbn in Hest, Hmono. split; cbn.
    + intros i blob p Hblob Hp.
      destruct (decide (i = j)) as [-> | Hne].
      * rewrite list_lookup_insert_eq in Hp by (eapply lookup_lt_Some; eauto).
        injection Hp as <-.
        destruct (Hrun j blob (Vis op k) Hblob Hl) as (known & Hens & Hk).
        exists (known || establishes (Digest blob) op x). split; [apply Hens |].
        intros Hor. apply orb_true_iff in Hor as [-> | Hor]; auto.
      * rewrite list_lookup_insert_ne in Hp by congruence.
        destruct (Hrun i blob p Hblob Hp) as (known & Hens & Hk).
        exists known. split; [exact Hens |]. intros Hkn. apply Hmono, Hk, Hkn.
    + intros i blob Hblob Hin. apply Hmono. eapply Hret; eauto.
Qed.

Lemma finishGoroutine_BlobsStored (blobs : list Descriptor)
    (st : Group * World S) (j : nat) :
  BlobsStored present blobs st -> BlobsStored present blobs (finishGoroutine st j).
Proof.
  destruct st as [g w]. intros Hinv. unfold finishGoroutine.
  destruct (goroutines g !! j) as [[p |] |] eqn:Hl; try exact Hinv.
  pose proof (fun d => run_present_mono p w d) as Hmono.
  pose proof (fun known d => run_ensures d p known w) as Hens.
  destruct (run p w) as [r w']. cbn in Hmono, Hens.
  apply (returns_BlobsStored blobs g w w');
    [exact Hmono | | rewrite Hl; eauto | exact Hinv].
  intros blob Hblob ->. destruct Hinv as [Hrun _].
  destruct (Hrun j blob p Hblob Hl) as (known & He & Hk).
  apply (Hens known); auto.
Qed.

Lemma foldl_BlobsStored (blobs : list Descriptor)
    (f : Group * World S -> nat -> Group * World S)
    (l : list nat) (st : Group * World S) :
  (forall st i, BlobsStored present blobs st -> BlobsStored present blobs (f st i)) ->
  BlobsStored present blobs st -> BlobsStored present blobs (foldl f st l).
Proof.
  intros Hf. revert st. induction l as [| i l IH]; intros st Hinv; cbn.
  - exact Hinv.
  - apply IH, Hf, Hinv.
Qed.

End Success.

#[export] Instance MemStore_FetchSound : FetchSound (gmap string Bytes) memPresent.
Proof.
  split. intros s c d rc Hf. cbn in Hf. unfold memPresent.
  destruct (s !! Digest d); [eauto | discriminate].
Qed.

Section Outcome.

Import fs.

Context {S : Type} `{Storage S} (present : S -> string -> Prop)
        `{!AppendOnly S present} `{!FetchSound S present}.

#[local] Arguments Fetch : simpl never.
#[local] Arguments materializeBlobs : simpl never.

Lemma stepGoroutine_present_mono (st : Group * World S) (j : nat) (d : string) :
  present (store (snd st)) d -> present (store (snd (stepGoroutine st j))) d.
Proof.
  destruct st as [g w]. cbn. intros Hp.
  destruct (goroutines g !! j) as [[[r | X op k] |] |]; cbn; try exact Hp.
  - now rewrite goroutineReturns_store.
  - pose proof (handle_present_mono present op w d Hp) as Hh.
    destruct (handle op w) as [x w']. exact Hh.
Qed.

Lemma finishGoroutine_present_mono (st : Group * World S) (j : nat) (d : string) :
  present (store (snd st)) d -> present (store (snd (finishGoroutine st j))) d.
Proof.
  destruct st as [g w]. cbn. intros Hp.
  destruct (goroutines g !! j) as [[p |] |]; cbn; try exact Hp.
  pose proof (run_present_mono present p w d Hp) as Hr.
  destruct (run p w) as [r w']. now rewrite goroutineReturns_store.
Qed.

Lemma foldl_present_mono (f : Group * World S -> nat -> Group * World S)
    (l : list nat) (st : Group * World S) (d : string) :
  (forall st i, present (store (snd st)) d -> present (store (snd (f st i))) d) ->
  present (store (snd st)) d -> present (store (snd (foldl f st l))) d.
Proof.
  intros Hf. revert st. induction l as [| i l IH]; intros st Hp; cbn.
  - exact Hp.
  - apply IH, Hf, Hp.
Qed.

Lemma materializeBlobs_present_mono (sched : list nat) (fetcher : artifactFetcher)
    (blobs : list Descriptor) (w : World S) (d : string) :
  present (store w) d ->
  present (store (snd (materializeBlobs sched fetcher blobs w))) d.
Proof.
  intros Hp. unfold materializeBlobs, GoAndWait. cbn.
  apply foldl_present_mono;
    [intros; now apply finishGoroutine_present_mono |].
  apply foldl_present_mono;
    [intros; now apply stepGoroutine_present_mono | exact Hp].
Qed.

(** When the blob group returns success, every blob of the list is in the
    store. *)
Lemma materializeBlobs_success (sched : list nat) (fetcher : artifactFetcher)
    (blobs : list Descriptor) (w : World S) :
  fst (fst (materializeBlobs sched fetcher blobs w)) = None ->
  forall blob, blob ∈ blobs ->
    present (store (snd (materializeBlobs sched fetcher blobs w))) (Digest blob).
Proof.
  unfold materializeBlobs, GoAndWait.
  set (tasks := map (blobTask fetcher) blobs).
  set (g0 := {| err := None; goroutines := map Some tasks; returned := [] |}).
  set (st1 := foldl stepGoroutine (g0, w) sched).
  set (st2 := foldl finishGoroutine st1 (seq 0 (length tasks))).
  cbn. intros Hres blob Hin.
  assert (Hinv0 : GroupInv (length blobs) g0).
  { unfold GroupInv, g0; cbn. repeat split.
    - subst tasks. now rewrite !length_map.
    - constructor.
    - intros Hi. now apply elem_of_nil in Hi.
    - intros Hl. apply list_lookup_fmap_Some in Hl as (t & Ht & _). discriminate Ht. }
  assert (Hinv1 : GroupInv (length blobs) (fst st1)).
  { apply foldl_inv; [apply stepGoroutine_inv | exact Hinv0]. }
  assert (Hinv2 : GroupInv (length blobs) (fst st2)).
  { apply foldl_inv; [apply finishGoroutine_inv | exact Hinv1]. }
  assert (Hstored : BlobsStored present blobs st2).
  { apply foldl_BlobsStored; [intros; now apply finishGoroutine_BlobsStored |].
    apply foldl_BlobsStored; [intros; now apply stepGoroutine_BlobsStored |].
    split; cbn.
    - intros i b p Hb Hp. subst tasks.
      rewrite !list_lookup_fmap, Hb in Hp. injection Hp as <-.
      exists false. split; [apply blobTask_ensures | discriminate].
    - intros i b _ Hi. now apply elem_of_nil in Hi. }
  apply list_elem_of_lookup in Hin as [i Hblob].
  assert (Hi : (i < length blobs)%nat) by (eapply lookup_lt_Some; eauto).
  assert (Hdone : goroutines (fst st2) !! i = Some None).
  { apply foldl_finish_all.
    - destruct Hinv1 as (Hlen & _). now rewrite Hlen.
    - left. apply elem_of_seq. subst tasks. rewrite length_map. lia. }
  destruct Hinv2 as (_ & _ & Hiff & Herr).
  apply Hiff in Hdone. apply list_elem_of_fmap in Hdone as ([i' r] & Heq & Hir).
  cbn in Heq. subst i'.
  rewrite Herr in Hres.
  pose proof (proj1 (firstError_None _) Hres i r Hir) as ->.
  destruct Hstored as [_ Hret]. exact (Hret i blob Hblob Hir).
Qed.

(** What a returned index stream tells about the digest and the store. *)
Lemma fetchIndex_ok (deps : Deps) (imageRef indexDigest : string) (w w1 : World S)
    (fetcher : artifactFetcher) (dgst : string) (rc : Stream) (local : bool) :
  run (fetchIndex deps imageRef indexDigest) w = (Ok (fetcher, dgst, rc, local), w1) ->
  digest_Parse deps indexDigest = Ok dgst
  /\ (local = true -> present (store w1) dgst).
Proof.
  unfold fetchIndex.
  destruct (reference_Parse deps imageRef) as [refspec | e]; [| discriminate].
  destruct (newRemoteStore deps refspec) as [remote | e]; [| discriminate].
  unfold newArtifactFetcher. cbn.
  destruct (digest_Parse deps indexDigest) as [d | e]; cbn; [| discriminate].
  rewrite run_bind.
  match goal with |- context [run (Fetch ?f ?d0) ?w0] =>
    pose proof (Fetch_frame f d0 w0) as (Hs & _);
    assert (Hloc : forall rc' w', run (Fetch f d0) w0 = (Ok (rc', true), w') ->
                                  storage_Fetch (store w0) (ctx w0) d0 = Ok rc');
    [| destruct (run (Fetch f d0) w0) as [[[rc' loc] | e] w'] eqn:Hrun ]
  end.
  - intros rc' w'. unfold Fetch. cbn.
    match goal with |- context [storage_Fetch ?s ?c ?d0] =>
      destruct (storage_Fetch s c d0) eqn:Hf
    end; cbn.
    + intros Heq. injection Heq as <- _. reflexivity.
    + repeat match goal with
        | |- context [match ?x with _ => _ end] => destruct x; cbn
        end; discriminate.
  - cbn. intros Heq. injection Heq as <- <- <- <- <-. split; [reflexivity |].
    intros ->. cbn in Hs. rewrite Hs.
    specialize (Hloc rc' w' eq_refl). eapply (fetch_present (present := present)) in Hloc.
    exact Hloc.
  - cbn. discriminate.
Qed.

(** A successful [FetchSociArtifacts] leaves everything in the local
    store: the index digest parses, and the index and every blob that the
    returned index lists are present afterwards, under every schedule of
    the goroutines. The store is one that keeps what was pushed and whose
    fetch delivers only what is present. *)
Theorem FetchSociArtifacts_success_stores_everything (deps : Deps)
    (sched : list nat) (c : Context) (imageRef indexDigest : string) (st : S)
    (index : SociIndex) :
  let out := FetchSociArtifacts deps sched c imageRef indexDigest st in
  fst out = Ok index ->
  exists dgst,
    digest_Parse deps indexDigest = Ok dgst
    /\ present (store (snd out)) dgst
    /\ forall blob, blob ∈ Blobs index -> present (store (snd out)) (Digest blob).
Proof.
  intros out. subst out. unfold FetchSociArtifacts.
  destruct (run (fetchIndex deps imageRef indexDigest) (mkWorld st c []))
    as [[[[[fetcher dgst] rc] local] | e] w1] eqn:Hfetch; [| discriminate].
  destruct (fetchIndex_ok _ _ _ _ _ _ _ _ _ Hfetch) as [Hd Hlocal].
  assert (Hindex : forall ix w2,
            run (decodeAndCache deps dgst rc local) w1 = (Ok ix, w2) ->
            present (store w2) dgst).
  { intros ix w2. unfold decodeAndCache, io_Copy. cbn.
    destruct (readErr rc); cbn; [discriminate |].
    destruct (json.Unmarshal (unmarshalSociIndex deps) (content rc)); cbn;
      [| discriminate].
    destruct local; cbn.
    - intros Heq. injection Heq as _ <-. cbn. now apply Hlocal.
    - destruct (storage_Push (store w1) (ctx w1) _ _) as [[e |] s'] eqn:Hpush;
        cbn; [discriminate |].
      intros Heq. injection Heq as _ <-. cbn.
      apply (push_adds (present := present)) in Hpush. exact Hpush. }
  destruct (run (decodeAndCache deps dgst rc local) w1) as [[ix | e] w2] eqn:Hdec;
    [| discriminate].
  specialize (Hindex ix w2 eq_refl).
  pose proof (materializeBlobs_success sched fetcher (Blobs ix) w2) as Hblobs.
  pose proof (materializeBlobs_present_mono sched fetcher (Blobs ix) w2 dgst Hindex)
    as Hkeep.
  destruct (materializeBlobs sched fetcher (Blobs ix) w2) as [[[e |] g] w3];
    cbn in *; [discriminate |].
  intros Heq. injection Heq as <-.
  exists dgst. auto.
Qed.

End Outcome.

(** Two blobs, both in the registry: all three digests end up in the store. *)
Lemma success_stores_everything_witness :
  let out := fs.FetchSociArtifacts sample.depsAllThere [1%nat; 0%nat]
               sample.background sample.imageRef sample.indexDigest sample.emptyStore in
  memPresent (fs.store (snd out)) sample.indexDigest
  /\ memPresent (fs.store (snd out)) (Digest sample.blob1)
  /\ memPresent (fs.store (snd out)) (Digest sample.blob2).
Proof.
  assert (Hok : fst (fs.FetchSociArtifacts sample.depsAllThere [1%nat; 0%nat]
                       sample.background sample.imageRef sample.indexDigest
                       sample.emptyStore)
                = Ok {| fs.Blobs := [sample.blob1; sample.blob2] |})
    by (vm_compute; reflexivity).
  destruct (FetchSociArtifacts_success_stores_everything memPresent
              sample.depsAllThere [1%nat; 0%nat] sample.background sample.imageRef
              sample.indexDigest sample.emptyStore
              {| fs.Blobs := [sample.blob1; sample.blob2] |} Hok)
    as (dgst & Hd & Hindex & Hblobs).
  injection Hd as <-.
  split; [exact Hindex |].
  split; apply Hblobs; [left | right; left].
Defined.

(* ------------------------------------------------------------------ *)
(** ** The result of the blob group *)

Section BlobGroupResult.

Import fs.

Context {S : Type} `{Storage S} (present : S -> string -> Prop)
        `{!AppendOnly S present}.

#[local] Arguments materializeBlobs : simpl never.






End BlobGroupResult.


(* ------------------------------------------------------------------ *)
(** ** What a failed blob group returns *)

Section GroupOutcome.

Import fs.

Context {S : Type} `{Storage S}.

#[local] Arguments Fetch : simpl never.











End GroupOutcome.

(* ------------------------------------------------------------------ *)
(** ** After the first failure *)

#[export] Instance GuardedStore_PushHonoursCancel : PushHonoursCancel GuardedStore.
Proof.
  split. intros s c d r Hc. cbn. rewrite Hc. eauto.
Qed.

Section FailFast.

Import fs.

Context {S : Type} `{Storage S} `{!PushHonoursCancel S}.

#[local] Arguments materializeBlobs : simpl never.







Lemma returnsAlong_app (step : Group * World S -> nat -> Group * World S)
    (ret : Group * World S -> nat -> option (option error))
    (l1 l2 : list nat) (st : Group * World S) :
  returnsAlong step ret st (l1 ++ l2)
  = returnsAlong step ret st l1 ++ returnsAlong step ret (foldl step st l1) l2.
Proof.
  revert st. induction l1 as [| i l1 IH]; intros st; cbn; [reflexivity |].
  now rewrite IH, app_assoc.
Qed.



End FailFast.


(* ------------------------------------------------------------------ *)
(** ** What is pushed to the store *)

Section Pushes.

Import fs.

Context {S : Type} `{Storage S}.

#[local] Arguments Fetch : simpl never.
#[local] Arguments materializeBlobs : simpl never.

Lemma pushedOnly_snoc (allowed : Descriptor -> Stream -> Prop) (tr : list Event)
    (ev : Event) :
  pushedOnly allowed tr ->
  match ev with EvLocalPush d r _ => allowed d r | _ => True end ->
  pushedOnly allowed (tr ++ [ev]).
Proof.
  intros Htr Hev d r res Hin. apply elem_of_app in Hin as [Hin | Hin]; [eauto |].
  apply list_elem_of_singleton in Hin. subst ev. exact Hev.
Qed.

Lemma pushedOnly_none (allowed : Descriptor -> Stream -> Prop) (tr : list Event) :
  pushEvents tr = [] -> pushedOnly allowed tr.
Proof.
  intros Hnone d r res Hin. exfalso.
  assert (Hp : (d, r, res) ∈ pushEvents tr).
  { apply list_elem_of_omap. exists (EvLocalPush d r res). auto. }
  rewrite Hnone in Hp. now apply elem_of_nil in Hp.
Qed.

Lemma handle_pushedOnly (allowed : Descriptor -> Stream -> Prop) {X : Type}
    (op : Op X) (w : World S) :
  match op with LocalPush d r => allowed d r | _ => True end ->
  pushedOnly allowed (trace w) ->
  pushedOnly allowed (trace (snd (handle op w))).
Proof.
  intros Hop Htr.
  destruct op as [desc | desc reader | rsv ref | rs desc | rc | lvl fields msg];
    cbn; try (apply pushedOnly_snoc; [exact Htr | exact I]).
  destruct (storage_Push (store w) (ctx w) desc reader) as [res s']. cbn.
  apply pushedOnly_snoc; [exact Htr | exact Hop].
Qed.

Lemma run_pushedOnly (allowed : Descriptor -> Stream -> Prop) {A : Type}
    (p : Prog A) (w : World S) :
  PushesOnly allowed p -> pushedOnly allowed (trace w) ->
  pushedOnly allowed (trace (snd (run p w))).
Proof.
  revert w. induction p as [a | X op k IH]; intros w Hp Htr; cbn; [exact Htr |].
  destruct Hp as [Hop Hk].
  pose proof (handle_pushedOnly allowed op w Hop Htr) as Hh.
  destruct (handle op w) as [x w']. apply IH; [apply Hk | exact Hh].
Qed.

Lemma PushesOnly_impl (P Q : Descriptor -> Stream -> Prop) {A : Type} (p : Prog A) :
  (forall d r, P d r -> Q d r) -> PushesOnly P p -> PushesOnly Q p.
Proof.
  intros HPQ. induction p as [a | X op k IH]; cbn; [auto |].
  intros [Hop Hk]. split; [| intros x; apply IH, Hk].
  destruct op; auto.
Qed.

(** A blob's goroutine pushes nothing but its blob. *)
Lemma blobTask_PushesOnly (fetcher : artifactFetcher) (blob : Descriptor) :
  PushesOnly (fun d _ => d = blob) (blobTask fetcher blob).
Proof.
  unfold blobTask, Fetch, Store, resolve. cbn.
  split; [exact I |]. intros [rc | e]; cbn; [tauto |].
  split; [exact I |]. intros _. destruct (Size blob =? 0); cbn.
  - split; [exact I |]. intros _. split; [exact I |].
    intros [resolved | er]; cbn; [| exact I].
    split; [exact I |]. intros [rc | ef]; cbn; [| exact I].
    split; [reflexivity |]. intros [err |]; cbn; tauto.
  - split; [exact I |]. intros [rc | ef]; cbn; [| exact I].
    split; [reflexivity |]. intros [err |]; cbn; tauto.
Qed.

Lemma stepGoroutine_pushedOnly (allowed : Descriptor -> Stream -> Prop)
    (st : Group * World S) (j : nat) :
  (forall i p, goroutines (fst st) !! i = Some (Some p) -> PushesOnly allowed p)
  /\ pushedOnly allowed (trace (snd st)) ->
  (forall i p, goroutines (fst (stepGoroutine st j)) !! i = Some (Some p) ->
               PushesOnly allowed p)
  /\ pushedOnly allowed (trace (snd (stepGoroutine st j))).
Proof.
  destruct st as [g w]. cbn. intros [Hrun Htr].
  destruct (goroutines g !! j) as [[[r | X op k] |] |] eqn:Hl; cbn; auto.
  - rewrite goroutineReturns_trace. split; [| exact Htr].
    intros i p. unfold goroutineReturns. destruct r, (err g); cbn;
      (destruct (decide (i = j)) as [-> | Hne];
       [ rewrite list_lookup_insert_eq by (eapply lookup_lt_Some; eauto); discriminate
       | rewrite list_lookup_insert_ne by congruence; apply Hrun ]).
  - destruct (Hrun j _ Hl) as [Hop Hk].
    pose proof (handle_pushedOnly allowed op w Hop Htr) as Hh.
    destruct (handle op w) as [x w']. cbn. split; [| exact Hh].
    intros i p. destruct (decide (i = j)) as [-> | Hne].
    + rewrite list_lookup_insert_eq by (eapply lookup_lt_Some; eauto).
      intros Heq. injection Heq as <-. apply Hk.
    + rewrite list_lookup_insert_ne by congruence. apply Hrun.
Qed.

Lemma finishGoroutine_pushedOnly (allowed : Descriptor -> Stream -> Prop)
    (st : Group * World S) (j : nat) :
  (forall i p, goroutines (fst st) !! i = Some (Some p) -> PushesOnly allowed p)
  /\ pushedOnly allowed (trace (snd st)) ->
  (forall i p, goroutines (fst (finishGoroutine st j)) !! i = Some (Some p) ->
               PushesOnly allowed p)
  /\ pushedOnly allowed (trace (snd (finishGoroutine st j))).
Proof.
  destruct st as [g w]. cbn. intros [Hrun Htr].
  destruct (goroutines g !! j) as [[p0 |] |] eqn:Hl; cbn; auto.
  pose proof (run_pushedOnly allowed p0 w (Hrun j p0 Hl) Htr) as Hr.
  destruct (run p0 w) as [r w']. rewrite goroutineReturns_trace.
  split; [| exact Hr].
  intros i p. unfold goroutineReturns. destruct r, (err g); cbn;
    (destruct (decide (i = j)) as [-> | Hne];
     [ rewrite list_lookup_insert_eq by (eapply lookup_lt_Some; eauto); discriminate
     | rewrite list_lookup_insert_ne by congruence; apply Hrun ]).
Qed.

Lemma materializeBlobs_pushedOnly (allowed : Descriptor -> Stream -> Prop)
    (sched : list nat) (fetcher : artifactFetcher) (blobs : list Descriptor)
    (w : World S) :
  (forall blob r, blob ∈ blobs -> allowed blob r) ->
  pushedOnly allowed (trace w) ->
  pushedOnly allowed (trace (snd (materializeBlobs sched fetcher blobs w))).
Proof.
  intros Hblobs Htr. unfold materializeBlobs, GoAndWait. cbn.
  assert (Hgen : forall (f : Group * World S -> nat -> Group * World S) l st,
    (forall st j,
       (forall i p, goroutines (fst st) !! i = Some (Some p) -> PushesOnly allowed p)
       /\ pushedOnly allowed (trace (snd st)) ->
       (forall i p, goroutines (fst (f st j)) !! i = Some (Some p) ->
                    PushesOnly allowed p)
       /\ pushedOnly allowed (trace (snd (f st j)))) ->
    (forall i p, goroutines (fst st) !! i = Some (Some p) -> PushesOnly allowed p)
    /\ pushedOnly allowed (trace (snd st)) ->
    (forall i p, goroutines (fst (foldl f st l)) !! i = Some (Some p) ->
                 PushesOnly allowed p)
    /\ pushedOnly allowed (trace (snd (foldl f st l)))).
  { intros f l. induction l as [| j l IH]; intros st Hf Hinv; cbn; [exact Hinv |].
    apply IH; [exact Hf | apply Hf, Hinv]. }
  apply Hgen; [apply finishGoroutine_pushedOnly |].
  apply Hgen; [apply stepGoroutine_pushedOnly |].
  cbn. split; [| exact Htr].
  intros i p Hp. rewrite !list_lookup_fmap in Hp.
  destruct (blobs !! i) as [blob |] eqn:Hb; [| discriminate].
  injection Hp as <-.
  apply (PushesOnly_impl (fun d _ => d = blob)); [| apply blobTask_PushesOnly].
  intros d r ->. apply Hblobs. eapply list_elem_of_lookup_2; eauto.
Qed.

(** Nothing else reaches the store. Under every schedule and whatever the
    result, either [FetchSociArtifacts] pushes nothing, or the index digest
    parsed and there is one index body, valid JSON that decodes to an
    index, such that every push is the push of that body, read from a
    buffer holding exactly it, under the parsed digest with the body's
    length as size, or the push of a blob under a descriptor that this
    index lists. *)
Theorem FetchSociArtifacts_pushes_only_index_and_blobs (deps : Deps)
    (sched : list nat) (c : Context) (imageRef indexDigest : string) (st : S) :
  let tr := trace (snd (FetchSociArtifacts deps sched c imageRef indexDigest st)) in
  pushEvents tr = []
  \/ exists dgst body index,
       digest_Parse deps indexDigest = Ok dgst
       /\ json.Unmarshal (unmarshalSociIndex deps) body = Ok index
       /\ pushedOnly
            (fun d r =>
               (d = {| MediaType := ""; Digest := dgst;
                       Size := Z.of_nat (length body) |}
                /\ r = {| content := body; readErr := None |})
               \/ d ∈ Blobs index)
            tr.
Proof.
  intros tr. subst tr. unfold FetchSociArtifacts.
  pose proof (fetchIndex_frame deps imageRef indexDigest (mkWorld st c []))
    as (_ & _ & Hp1).
  destruct (run (fetchIndex deps imageRef indexDigest) (mkWorld st c []))
    as [[[[[fetcher dgst] rc] local] | e] w1] eqn:Hfetch; cbn in Hp1;
    [| now left].
  assert (Hd : digest_Parse deps indexDigest = Ok dgst).
  { revert Hfetch. unfold fetchIndex.
    destruct (reference_Parse deps imageRef); [| discriminate].
    destruct (newRemoteStore deps _); [| discriminate].
    unfold newArtifactFetcher. cbn.
    destruct (digest_Parse deps indexDigest); cbn; [| discriminate].
    rewrite run_bind.
    match goal with |- context [run (Fetch ?f ?d0) ?w0] =>
      destruct (run (Fetch f d0) w0) as [[[rc' loc] | e] w']
    end; cbn; [| discriminate].
    intros Heq. now injection Heq as _ <- _ _ _. }
  unfold decodeAndCache, io_Copy. cbn.
  destruct (readErr rc); cbn.
  { left. now rewrite pushEvents_app, Hp1. }
  destruct (json.Unmarshal (unmarshalSociIndex deps) (content rc)) as [ix | e]
    eqn:Hdec; cbn.
  2: { left. now rewrite pushEvents_app, Hp1. }
  right. exists dgst, (content rc), ix. split; [exact Hd |]. split; [exact Hdec |].
  set (allowed := fun (d : Descriptor) (r : Stream) => _ \/ _).
  assert (Hclose : pushedOnly allowed (trace w1 ++ [EvClose rc])).
  { apply pushedOnly_none. now rewrite pushEvents_app, Hp1. }
  assert (Hall : forall blob r, blob ∈ Blobs ix -> allowed blob r)
    by (intros blob r Hin; now right).
  assert (Hidx : allowed (indexDescriptor dgst (content rc))
                         (bufferReader (content rc))).
  { left. split; reflexivity. }
  destruct local; cbn.
  - pose proof (materializeBlobs_pushedOnly allowed sched fetcher (Blobs ix)
                  (record (EvClose rc) w1) Hall Hclose) as Hg.
    destruct (materializeBlobs sched fetcher (Blobs ix) _) as [[[e |] g] w3];
      exact Hg.
  - destruct (storage_Push (store w1) (ctx w1) _ _) as [[e |] s'] eqn:Hpush; cbn.
    + apply pushedOnly_snoc; [| exact I]. now apply pushedOnly_snoc.
    + match goal with |- context [materializeBlobs sched fetcher (Blobs ix) ?w2] =>
        pose proof (materializeBlobs_pushedOnly allowed sched fetcher (Blobs ix)
                      w2 Hall) as Hg
      end.
      cbn in Hg. specialize (Hg ltac:(now apply pushedOnly_snoc)).
      match goal with |- context [materializeBlobs sched fetcher (Blobs ix) ?w2] =>
        destruct (materializeBlobs sched fetcher (Blobs ix) w2) as [[[e |] g] w3]
      end; exact Hg.
Qed.

End Pushes.

(* ------------------------------------------------------------------ *)
(** ** An empty index body *)

Section BlankIndex.

Import fs.

Context {S : Type} `{Storage S}.

#[local] Arguments Fetch : simpl never.
#[local] Arguments materializeBlobs : simpl never.

Lemma scanAll_blank (ws : Bytes) (s : json.scanner) :
  Forall (fun b => json.isSpace b = true) ws ->
  json.step s = json.stateBeginValue ->
  exists s', json.scanAll s ws = inl s'
             /\ json.step s' = json.stateBeginValue
             /\ json.endTop s' = json.endTop s
             /\ json.err s' = json.err s
             /\ json.bytes s' = json.bytes s + Z.of_nat (length ws).
Proof.
  intros Hws. revert s. induction Hws as [| b ws Hb _ IH]; intros s Hstep; cbn.
  - exists s. repeat split; auto. lia.
  - unfold json.doStep. cbn. rewrite Hstep. unfold json.do_stateBeginValue.
    rewrite Hb. cbn.
    match goal with |- context [json.scanAll ?s1 ws] =>
      destruct (IH s1 eq_refl) as (s' & Hs' & H1 & H2 & H3 & H4)
    end.
    exists s'. cbn in H2, H3, H4. repeat split; auto. lia.
Qed.

Lemma checkValid_blank (ws : Bytes) :
  Forall (fun b => json.isSpace b = true) ws ->
  json.checkValid ws
  = Some (SyntaxError None "unexpected end of JSON input" (Z.of_nat (length ws))).
Proof.
  intros Hws. unfold json.checkValid.
  destruct (scanAll_blank ws json.reset Hws eq_refl)
    as (s' & -> & Hstep & Htop & Herr & Hbytes).
  cbn in Htop, Herr, Hbytes.
  unfold json.eof. rewrite Herr, Htop.
  unfold json.doStep. rewrite Hstep. unfold json.do_stateBeginValue. cbn.
  rewrite Htop, Herr. cbn. now rewrite Hbytes.
Qed.

(** An index body that is empty, or holds white space only, is refused with
    "unexpected end of JSON input" at its end, whatever the decoder of the
    index type is; nothing is pushed and no blob is fetched. *)
Theorem FetchSociArtifacts_refuses_blank_index (deps : Deps) (sched : list nat)
    (c : Context) (imageRef indexDigest : string) (st : S)
    (fetcher : artifactFetcher) (dgst : string) (rc : Stream) (local : bool)
    (w1 : World S) :
  run (fetchIndex deps imageRef indexDigest) (mkWorld st c [])
    = (Ok (fetcher, dgst, rc, local), w1) ->
  readErr rc = None ->
  Forall (fun b => json.isSpace b = true) (content rc) ->
  let out := FetchSociArtifacts deps sched c imageRef indexDigest st in
  fst out = Err (SyntaxError None "unexpected end of JSON input"
                   (Z.of_nat (length (content rc))))
  /\ trace (snd out) = trace w1 ++ [EvClose rc]
  /\ pushEvents (trace (snd out)) = [].
Proof.
  intros Hfetch Hread Hblank out.
  assert (Hdec : json.Unmarshal (unmarshalSociIndex deps) (content rc)
                 = Err (SyntaxError None "unexpected end of JSON input"
                          (Z.of_nat (length (content rc))))).
  { unfold json.Unmarshal. now rewrite checkValid_blank. }
  destruct (FetchSociArtifacts_fails_after_close deps sched c imageRef
              indexDigest st fetcher dgst rc local w1 _ Hfetch
              (or_intror (conj Hread Hdec))) as (Hres & Htr & _).
  pose proof (fetchIndex_frame deps imageRef indexDigest (mkWorld st c []))
    as (_ & _ & Hp).
  rewrite Hfetch in Hp. cbn in Hp.
  subst out. repeat split; try assumption.
  rewrite Htr, pushEvents_app, Hp. reflexivity.
Qed.

End BlankIndex.

(** The registry answers with an empty body. *)
Lemma refuses_blank_index_witness :
  fst (fs.FetchSociArtifacts (sample.depsFor [] (fun _ => Ok sample.index)) []
         sample.background sample.imageRef sample.indexDigest sample.emptyStore)
  = Err (SyntaxError None "unexpected end of JSON input" 0).
Proof.
  edestruct (FetchSociArtifacts_refuses_blank_index
               (sample.depsFor [] (fun _ => Ok sample.index)) []
               sample.background sample.imageRef sample.indexDigest sample.emptyStore)
    as (Hres & _); [reflexivity | reflexivity | constructor |].
  exact Hres.
Defined.

(** A reference that does not parse. *)
Lemma bad_input_witness :
  fst (fs.FetchSociArtifacts sample.deps [] sample.background "no reference"
         sample.indexDigest sample.emptyStore)
  = Err (fmt_Errorf "cannot parse image ref (%s): %w" ["no reference"%string]
           (errorString "invalid reference format")).
Proof.
  exact (proj1 (proj1 (FetchSociArtifacts_bad_input_touches_nothing sample.deps []
                         sample.background "no reference" sample.indexDigest
                         sample.emptyStore)
                  (errorString "invalid reference format") eq_refl)).
Defined.

(** The index is asked for from an empty store. *)
Lemma fetchIndex_resolves_witness :
  exists rest,
    fs.trace (snd (fs.run (fs.fetchIndex sample.deps sample.imageRef sample.indexDigest)
                     (fs.mkWorld sample.emptyStore sample.background [])))
    = [EvLog Info [("digest", sample.indexDigest)]
         "fetching SOCI index from remote registry";
       EvLocalFetch sample.indexByDigest; logRemote sample.indexByDigest;
       logZeroSize sample.indexByDigest;
       EvResolve "example.com/repo@sha256:aaaa"] ++ rest.
Proof.
  edestruct (fetchIndex_resolves_by_digest sample.deps sample.imageRef
               sample.indexDigest
               (fs.mkWorld sample.emptyStore sample.background []))
    as (rest & Htr & _); [reflexivity | reflexivity | reflexivity | reflexivity |].
  exists rest. exact Htr.
Defined.

(** The index is in the store already and lists nothing else. *)
Lemma local_index_witness :
  let out := fs.FetchSociArtifacts
               (sample.depsFor sample.indexJSON (fun _ => Ok {| fs.Blobs := [] |}))
               [] sample.background sample.imageRef sample.indexDigest
               (<[sample.indexDigest := sample.indexJSON]> sample.emptyStore) in
  fst out = Ok {| fs.Blobs := [] |} /\ pushEvents (fs.trace (snd out)) = [].
Proof.
  intros out.
  edestruct (FetchSociArtifacts_local_index_not_pushed
               (sample.depsFor sample.indexJSON (fun _ => Ok {| fs.Blobs := [] |}))
               [] sample.background sample.imageRef sample.indexDigest
               (<[sample.indexDigest := sample.indexJSON]> sample.emptyStore))
    as [Hw Hres];
    [ reflexivity | reflexivity | reflexivity | vm_compute; reflexivity
    | reflexivity | vm_compute; reflexivity | ].
  fold out in Hw, Hres. split.
  - rewrite Hres. reflexivity.
  - rewrite Hw. reflexivity.
Defined.

(** The store is broken: the index cannot be cached. *)
Lemma index_push_failure_witness :
  fst (fs.FetchSociArtifacts sample.deps [] sample.background sample.imageRef
         sample.indexDigest tt)
  = Err (errorString "input/output error").
Proof.
  edestruct (FetchSociArtifacts_index_push_failure_stops sample.deps []
               sample.background sample.imageRef sample.indexDigest tt)
    as (Hres & _); [reflexivity | reflexivity | reflexivity | reflexivity |].
  exact Hres.
Defined.
